(** * nbusy-server: delivery queue and connection listener

    A shallow embedding of [queue.go] (the per-user delivery queue and the
    user/connection directory) and of [listener.go] (the length-prefixed
    frame reader [handleClient]), with the properties of the design
    document checked against them.

    Conventions.
    - [cmap.CMap] (a concurrent string-keyed map) is a [gmap string V].
    - A Go slice is a backing array together with a length; the capacity
      is the length of the backing array ([slice]).
    - Code that terminates the process or the goroutine abnormally returns
      an explicit [outcome]: [Fatal] for [log.Fatal] (which calls
      [os.Exit(1)]), [Panic] for a run-time panic.
    - [go f(x)] is recorded as a spawned [task]. *)

From Stdlib Require Import ZArith Strings.Byte.
From stdpp Require Import gmap strings list.


(* ===================================================================== *)
(** * Part I: queue.go *)
(* ===================================================================== *)

Module Queue.

(** ** Data *)

(** [queuedRequest]: [Params] is an [interface{}] and [ResHandler] a
    function value; both may be nil.  Only their identity matters to the
    queue, so a payload is a string and a handler is a number. *)
Record queuedRequest := mkReq {
  Method : string;
  Params : option string;
  ResHandler : option nat
}.

#[global] Instance queuedRequest_eq_dec : EqDecision queuedRequest.
Proof. solve_decision. Defined.

(** The zero value [queuedRequest{}]. *)
Definition zeroRequest : queuedRequest :=
  {| Method := ""; Params := None; ResHandler := None |}.

(** A [[]queuedRequest] value: the cells of the backing array from the
    slice's base up to its capacity, and the slice length. *)
Record slice := mkSlice {
  arr : list queuedRequest;
  len : nat
}.

Definition cap (s : slice) : nat := length (arr s).

(** The elements a slice denotes: the first [len] cells. *)
Definition elems (s : slice) : list queuedRequest := take (len s) (arr s).

(** The composite literal [[]queuedRequest{r}]: length and capacity 1. *)
Definition slice_lit (r : queuedRequest) : slice :=
  {| arr := [r]; len := 1 |}.

(** [append(s, r)].  With spare capacity the element is written in place;
    otherwise the array is reallocated with room to grow (the run time
    doubles a small capacity). *)
Definition go_append (s : slice) (r : queuedRequest) : slice :=
  if decide (len s < cap s) then
    {| arr := <[len s := r]> (arr s); len := S (len s) |}
  else
    {| arr := take (len s) (arr s) ++ r :: replicate (2 * cap s - S (len s)) zeroRequest;
       len := S (len s) |}.

(** [sync.RWMutex], reduced to its writer lock. *)
Record RWMutex := mkMutex { locked : bool }.

Definition zeroMutex : RWMutex := {| locked := false |}.

(** ** The router

    [jsonrpc.Router] is outside the repository.  The queue only calls
    [SendRequest(connID, method, params, resHandler) error].  A router is
    modelled by the record of the calls it received and a policy that
    decides, from that record and the call at hand, whether the hand-off
    succeeds. *)
Record call := mkCall {
  c_conn : string;
  c_req : queuedRequest;
  c_ok : bool
}.

Record Router := mkRouter {
  accepts : list call → string → queuedRequest → bool;
  calls : list call
}.

(** [r.SendRequest(connID, req.Method, req.Params, req.ResHandler)];
    the boolean is [err == nil]. *)
Definition SendRequest (r : Router) (connID : string) (req : queuedRequest)
  : Router * bool :=
  let ok := accepts r (calls r) connID req in
  ({| accepts := accepts r; calls := calls r ++ [mkCall connID req ok] |}, ok).

(** The requests that were handed off successfully, oldest first. *)
Definition delivered (r : Router) : list queuedRequest :=
  c_req <$> filter (λ c, c_ok c = true) (calls r).

(** The requests whose hand-off was attempted, oldest first. *)
Definition attempted (r : Router) : list queuedRequest :=
  c_req <$> calls r.

(** ** The queue *)

Record Queue := mkQueue {
  conns : gmap string string;      (* user ID -> conn ID *)
  router : Router;
  reqs : gmap string slice;        (* user ID -> []queuedRequest *)
  mutexes : gmap string RWMutex    (* user ID -> sync.RWMutex *)
}.

(** [NewQueue] followed by [SetRouter]. *)
Definition NewQueue (r : Router) : Queue :=
  {| conns := ∅; router := r; reqs := ∅; mutexes := ∅ |}.

Definition SetRouter (q : Queue) (r : Router) : Queue :=
  {| conns := conns q; router := r; reqs := reqs q; mutexes := mutexes q |}.

(** Goroutines started with [go]. *)
Inductive task :=
| TProcessQueue (userID : string)                  (* go q.processQueue(userID) *)
| TAddRequest (userID : string) (r : queuedRequest). (* the closure of AddRequest *)

(** [SetConn]: the new queue and the goroutines it starts. *)
Definition SetConn (q : Queue) (userID connID : string) : Queue * list task :=
  match conns q !! userID with
  | None =>
      ({| conns := <[userID := connID]> (conns q);
          router := router q;
          reqs := reqs q;
          mutexes := <[userID := zeroMutex]> (mutexes q) |},
       [TProcessQueue userID])
  | Some _ => (q, [])
  end.

(** [RemoveConn]. *)
Definition RemoveConn (q : Queue) (userID : string) : Queue :=
  {| conns := delete userID (conns q);
     router := router q;
     reqs := reqs q;
     mutexes := delete userID (mutexes q) |}.

(** [AddRequest] builds the request, starts its closure and returns nil. *)
Definition AddRequest (q : Queue) (userID method : string)
    (params : option string) (resHandler : option nat) : Queue * list task :=
  (q, [TAddRequest userID (mkReq method params resHandler)]).

(** The closure started by [AddRequest]. *)
Definition addRequest_closure (q : Queue) (userID : string) (r : queuedRequest)
  : Queue * list task :=
  let reqs' :=
    match reqs q !! userID with
    | Some rs => <[userID := go_append rs r]> (reqs q)
    | None => <[userID := slice_lit r]> (reqs q)
    end in
  ({| conns := conns q; router := router q; reqs := reqs'; mutexes := mutexes q |},
   [TProcessQueue userID]).

(** ** processQueue *)

(** How a piece of code ends.  [Fatal] and [Panic] end the whole process;
    they keep the router so that the hand-offs made before the crash can
    be inspected. *)
Inductive outcome (A : Type) :=
| Done (a : A)
| Fatal (r : Router)      (* log.Fatal: os.Exit(1) *)
| Panic (r : Router)      (* run-time panic, not recovered *)
| Blocked.                (* Lock() on a mutex that is held *)
Arguments Done {A} a.
Arguments Fatal {A} r.
Arguments Panic {A} r.
Arguments Blocked {A}.

(** The statement
    [reqs, reqs[len(reqs)-1] = append(reqs[:i], reqs[i+1:]...), queuedRequest{}].
    The operands are evaluated first: [reqs[:i]] needs [i <= cap(reqs)],
    [reqs[i+1:]] needs [i+1 <= len(reqs)]; otherwise the slice expression
    panics ([None]).  [append] then moves the cells [i+1 .. len-1] one
    place down inside the same array, [reqs] becomes one shorter, and the
    cell at the old last index is zeroed. *)
Definition remove_at (i : nat) (s : slice) : option slice :=
  if decide (i ≤ cap s ∧ i + 1 ≤ len s) then
    let moved :=
      take i (arr s) ++ take (len s - (i + 1)) (drop (i + 1) (arr s))
        ++ drop (len s - 1) (arr s) in
    Some {| arr := <[len s - 1 := zeroRequest]> moved; len := len s - 1 |}
  else None.

(** [for i, req := range reqs { ... }].  The range expression is evaluated
    once: the loop runs for the indices below the initial length ([k]
    iterations are left, [i] is the current index), and reads cell [i] of
    the backing array, which the body changes. *)
Fixpoint range_loop (r : Router) (connID : string) (k i : nat) (s : slice)
  : outcome (Router * slice) :=
  match k with
  | 0 => Done (r, s)
  | S k' =>
      match arr s !! i with
      | None => Panic r
      | Some req =>
          let '(r', ok) := SendRequest r connID req in
          if ok then
            match remove_at i s with
            | Some s' => range_loop r' connID k' (S i) s'
            | None => Panic r'
            end
          else Fatal r'
      end
  end.

(** [processQueue].  The mutex is fetched from the map by value
    ([q.mutexes.Get(userID).(sync.RWMutex)]): the goroutine locks and
    unlocks its own copy, the map keeps the value it had. *)
Definition processQueue (q : Queue) (userID : string) : outcome Queue :=
  match conns q !! userID with
  | None => Done q
  | Some connID =>
      match mutexes q !! userID with
      | None => Panic (router q)        (* type assertion on a nil interface *)
      | Some mutex =>
          if locked mutex then Blocked
          else
            match reqs q !! userID with
            | Some rs =>
                match range_loop (router q) connID (len rs) 0 rs with
                | Done (r', rs') =>
                    Done {| conns := conns q; router := r';
                            reqs := <[userID := rs']> (reqs q);
                            mutexes := mutexes q |}
                | Fatal r' => Fatal r'
                | Panic r' => Panic r'
                | Blocked => Blocked
                end
            | None => Done q
            end
      end
  end.

(** ** Running goroutines one after the other *)

Definition run_task (q : Queue) (t : task) : outcome (Queue * list task) :=
  match t with
  | TAddRequest u r => Done (addRequest_closure q u r)
  | TProcessQueue u =>
      match processQueue q u with
      | Done q' => Done (q', [])
      | Fatal r => Fatal r
      | Panic r => Panic r
      | Blocked => Blocked
      end
  end.

(** Runs the pending goroutines to completion, oldest first. *)
Fixpoint run_all (fuel : nat) (q : Queue) (ts : list task) : option (outcome Queue) :=
  match ts with
  | [] => Some (Done q)
  | t :: ts' =>
      match fuel with
      | 0 => None
      | S fuel' =>
          match run_task q t with
          | Done (q', new) => run_all fuel' q' (ts' ++ new)
          | Fatal r => Some (Fatal r)
          | Panic r => Some (Panic r)
          | Blocked => Some Blocked
          end
      end
  end.

(** An API call followed by the goroutines it started. *)
Definition call_AddRequest (q : Queue) (userID : string) (r : queuedRequest)
  : option (outcome Queue) :=
  let '(q', ts) := AddRequest q userID (Method r) (Params r) (ResHandler r) in
  run_all 4 q' ts.

Definition call_SetConn (q : Queue) (userID connID : string) : option (outcome Queue) :=
  let '(q', ts) := SetConn q userID connID in
  run_all 4 q' ts.

(** Routers used in the examples. *)
Definition always_ok : Router :=
  {| accepts := λ _ _ _, true; calls := [] |}.

Definition always_fail : Router :=
  {| accepts := λ _ _ _, false; calls := [] |}.

Definition reqA : queuedRequest := mkReq "A" (Some "a") (Some 1).
Definition reqB : queuedRequest := mkReq "B" (Some "b") (Some 2).
Definition reqC : queuedRequest := mkReq "C" (Some "c") (Some 3).

(** Slices whose length is within their capacity; the slices the queue
    builds are of this kind. *)
Definition wf (s : slice) : Prop := len s ≤ cap s.

(** A router that accepts every hand-off, whatever was sent before. *)
Definition accepts_all (r : Router) : Prop :=
  ∀ l c req, accepts r l c req = true.

(** Sequencing of calls that may crash the process. *)
Definition and_then (o : option (outcome Queue))
    (f : Queue → option (outcome Queue)) : option (outcome Queue) :=
  match o with
  | Some (Done q) => f q
  | other => other
  end.

(** Three requests enqueued for "u" before any association, then one
    [SetConn("u", "c1")]; every goroutine runs to its end before the
    next call. *)
Definition enqueue_ABC (r : Router) : option (outcome Queue) :=
  and_then (call_AddRequest (NewQueue r) "u" reqA) (λ q1,
  and_then (call_AddRequest q1 "u" reqB) (λ q2,
  call_AddRequest q2 "u" reqC)).

Definition enqueue_ABC_then_SetConn (r : Router) : option (outcome Queue) :=
  and_then (enqueue_ABC r) (λ q, call_SetConn q "u" "c1").

End Queue.

(* ===================================================================== *)
(** * Part II: goroutines of queue.go, interleaved *)
(* ===================================================================== *)

(** [processQueue] cut at the points where another goroutine can run in
    between.  The calls of the API ([SetConn], the closure of
    [AddRequest]) and the body of the drain are taken as single steps;
    what is observed is which goroutines are inside the drain body at
    the same time. *)
Module Conc.
Import Queue.

(** Program points of [processQueue(userID)]. *)
Inductive pc :=
| PStart                                      (* before q.conns.GetOk(userID) *)
| PGetMutex (connID : string)                 (* before q.mutexes.Get(userID).(sync.RWMutex) *)
| PLock (connID : string) (mutex : RWMutex)   (* before mutex.Lock() *)
| PBody (connID : string) (mutex : RWMutex)   (* after Lock(): the drain body *)
| PUnlock (mutex : RWMutex)                   (* before mutex.Unlock() *)
| PReturned.

Inductive goroutine :=
| GProcessQueue (userID : string) (at_pc : pc)
| GAddRequest (userID : string) (r : queuedRequest)
| GFinished.

Definition spawn (t : task) : goroutine :=
  match t with
  | TProcessQueue u => GProcessQueue u PStart
  | TAddRequest u r => GAddRequest u r
  end.

Record system := mkSystem {
  shared : Queue;
  pool : list goroutine
}.

(** One step of one goroutine: the shared queue after the step, the
    goroutine's next state and the goroutines it started.  [None]: the
    goroutine cannot move (it has finished, it waits for a lock that is
    held, or the process has crashed). *)
Definition goroutine_step (q : Queue) (g : goroutine)
  : option (Queue * goroutine * list goroutine) :=
  match g with
  | GFinished => None
  | GAddRequest u r =>
      let '(q', ts) := addRequest_closure q u r in
      Some (q', GFinished, spawn <$> ts)
  | GProcessQueue u PStart =>
      match conns q !! u with
      | None => Some (q, GProcessQueue u PReturned, [])
      | Some connID => Some (q, GProcessQueue u (PGetMutex connID), [])
      end
  | GProcessQueue u (PGetMutex connID) =>
      match mutexes q !! u with
      | None => None
      | Some mutex => Some (q, GProcessQueue u (PLock connID mutex), [])
      end
  | GProcessQueue u (PLock connID mutex) =>
      (* Lock() acts on the local variable [mutex], a copy *)
      if locked mutex then None
      else Some (q, GProcessQueue u (PBody connID {| locked := true |}), [])
  | GProcessQueue u (PBody connID mutex) =>
      match reqs q !! u with
      | Some rs =>
          match range_loop (router q) connID (len rs) 0 rs with
          | Done (r', rs') =>
              Some ({| conns := conns q; router := r';
                       reqs := <[u := rs']> (reqs q);
                       mutexes := mutexes q |},
                    GProcessQueue u (PUnlock mutex), [])
          | _ => None
          end
      | None => Some (q, GProcessQueue u (PUnlock mutex), [])
      end
  | GProcessQueue u (PUnlock mutex) =>
      Some (q, GProcessQueue u PReturned, [])
  | GProcessQueue u PReturned => None
  end.

(** What can happen next: a caller invokes the API, or the scheduler
    lets goroutine number [i] take a step. *)
Inductive action :=
| ASetConn (userID connID : string)
| AAddRequest (userID : string) (r : queuedRequest)
| AGo (i : nat).

Definition exec (s : system) (a : action) : option system :=
  match a with
  | ASetConn u c =>
      let '(q', ts) := SetConn (shared s) u c in
      Some {| shared := q'; pool := pool s ++ (spawn <$> ts) |}
  | AAddRequest u r =>
      let '(q', ts) := AddRequest (shared s) u (Method r) (Params r) (ResHandler r) in
      Some {| shared := q'; pool := pool s ++ (spawn <$> ts) |}
  | AGo i =>
      match pool s !! i with
      | None => None
      | Some g =>
          match goroutine_step (shared s) g with
          | None => None
          | Some (q', g', new) =>
              Some {| shared := q'; pool := <[i := g']> (pool s) ++ new |}
          end
      end
  end.

Fixpoint run (s : system) (sched : list action) : option system :=
  match sched with
  | [] => Some s
  | a :: rest =>
      match exec s a with
      | None => None
      | Some s' => run s' rest
      end
  end.

Definition start (r : Router) : system :=
  {| shared := NewQueue r; pool := [] |}.

Definition reachable (r : Router) (s : system) : Prop :=
  ∃ sched, run (start r) sched = Some s.

(** Is the goroutine inside the drain body of [userID]? *)
Definition in_drain (userID : string) (g : goroutine) : bool :=
  match g with
  | GProcessQueue u (PBody _ _) => bool_decide (u = userID)
  | _ => false
  end.

(** The number of goroutines inside the drain body of [userID]. *)
Definition draining (userID : string) (s : system) : nat :=
  length (filter (λ g, in_drain userID g = true) (pool s)).

(** A schedule: one association, one enqueue, and the two goroutines
    [processQueue("u")] they start, each advanced up to its drain body. *)
Definition race : list action :=
  [ASetConn "u" "c1"; AAddRequest "u" reqA; AGo 1;
   AGo 0; AGo 0; AGo 0;
   AGo 2; AGo 2; AGo 2].

(** No mutex kept in the map is locked. *)
Definition none_locked (q : Queue) : Prop :=
  ∀ u m, mutexes q !! u = Some m → locked m = false.

End Conc.

(* ===================================================================== *)
(** * Part III: listener.go *)
(* ===================================================================== *)

Module Listener.

Definition bytes_of (s : string) : list byte := String.list_byte_of_string s.

(** [var ping = []byte("ping")], [closed = []byte("close")]. *)
Definition ping : list byte := bytes_of "ping".
Definition closed : list byte := bytes_of "close".

Definition newline : byte := x0a.

(** [bytes.Equal]. *)
Fixpoint bytes_Equal (a b : list byte) : bool :=
  match a, b with
  | [], [] => true
  | x :: a', y :: b' => Byte.eqb x y && bytes_Equal a' b'
  | _, _ => false
  end.

(** [bytes.IndexByte]. *)
Fixpoint IndexByte (s : list byte) (c : byte) : option nat :=
  match s with
  | [] => None
  | x :: s' => if Byte.eqb x c then Some 0 else S <$> IndexByte s' c
  end.

(** ** The connection, read side

    What the peer sends arrives in groups of bytes; one [Read] returns
    bytes of one group only, as many as fit.  After the last group every
    [Read] fails with [at_end]: [ErrEOF] when the peer has closed,
    [ErrTimeout] when the read deadline set by [SetReadDeadline] passes
    with nothing received. *)
Inductive read_error := ErrEOF | ErrTimeout | ErrBufferFull.

Record Conn := mkConn {
  incoming : list (list byte);
  at_end : read_error
}.

(** A [Read] waits until at least one byte is there: empty groups are
    passed over. *)
Fixpoint take_group (cs : list (list byte)) (n : nat)
  : option (list byte * list (list byte)) :=
  match cs with
  | [] => None
  | [] :: rest => take_group rest n
  | chunk :: rest =>
      if decide (length chunk ≤ n) then Some (chunk, rest)
      else Some (take n chunk, drop n chunk :: rest)
  end.

(** [conn.Read(p)] with [len(p) = n]: the bytes read and the connection
    afterwards, or the error. *)
Definition conn_Read (c : Conn) (n : nat) : (list byte * Conn) + read_error :=
  match take_group (incoming c) n with
  | Some (data, rest) => inl (data, {| incoming := rest; at_end := at_end c |})
  | None => inr (at_end c)
  end.

(** ** bufio.Reader

    [buf] holds the bytes read from the connection and not yet consumed
    ([b.buf[b.r:b.w]]); the buffer has room for [bufSize] bytes. *)
Record Reader := mkReader {
  rd : Conn;
  buf : list byte
}.

Definition bufSize : nat := 4096.

Definition NewReader (c : Conn) : Reader := {| rd := c; buf := [] |}.

(** [b.fill()]: one read from the connection into the free part of the
    buffer. *)
Definition fill (b : Reader) : Reader + read_error :=
  match conn_Read (rd b) (bufSize - length (buf b)) with
  | inl (data, c') => inl {| rd := c'; buf := buf b ++ data |}
  | inr e => inr e
  end.

(** [b.ReadSlice(delim)]: search the buffer; when the delimiter is not
    there, fail if the buffer is full, else fill and search again.  Every
    fill adds a byte or fails, so [S bufSize] rounds are enough. *)
Fixpoint ReadSlice_loop (fuel : nat) (b : Reader) (delim : byte)
  : (list byte * Reader) + read_error :=
  match IndexByte (buf b) delim with
  | Some i => inl (take (S i) (buf b), {| rd := rd b; buf := drop (S i) (buf b) |})
  | None =>
      if decide (bufSize ≤ length (buf b)) then inr ErrBufferFull
      else
        match fuel with
        | 0 => inr ErrBufferFull
        | S fuel' =>
            match fill b with
            | inl b' => ReadSlice_loop fuel' b' delim
            | inr e => inr e
            end
        end
  end.

Definition ReadSlice (b : Reader) (delim : byte) : (list byte * Reader) + read_error :=
  ReadSlice_loop (S bufSize) b delim.

(** [b.Read(p)]: the count, [p] afterwards and the reader afterwards.
    The bytes are copied to the start of [p]. *)
Definition Read (b : Reader) (p : list byte) : (nat * list byte * Reader) + read_error :=
  let n := length p in
  if decide (n = 0) then inl (0, p, b)
  else
    match buf b with
    | [] =>
        if decide (bufSize ≤ n) then
          (* large read, empty buffer: read directly into p *)
          match conn_Read (rd b) n with
          | inl (data, c') =>
              inl (length data, data ++ drop (length data) p, {| rd := c'; buf := [] |})
          | inr e => inr e
          end
        else
          (* one read into the buffer, then copy *)
          match conn_Read (rd b) bufSize with
          | inl (data, c') =>
              let k := min n (length data) in
              inl (k, take k data ++ drop k p, {| rd := c'; buf := drop k data |})
          | inr e => inr e
          end
    | _ :: _ =>
        let k := min n (length (buf b)) in
        inl (k, take k (buf b) ++ drop k p, {| rd := rd b; buf := drop k (buf b) |})
    end.

(** ** strconv.Atoi

    An optional sign, then one or more decimal digits; the value must fit
    a 64-bit [int].  [None] stands for a non-nil error. *)
Definition is_digit (c : byte) : bool :=
  (48 <=? Byte.to_N c)%N && (Byte.to_N c <=? 57)%N.

Fixpoint digits_value (acc : Z) (s : list byte) : option Z :=
  match s with
  | [] => Some acc
  | c :: s' =>
      if is_digit c then digits_value (acc * 10 + (Z.of_N (Byte.to_N c) - 48))%Z s'
      else None
  end.

Definition Atoi (s : list byte) : option Z :=
  match s with
  | [] => None
  | c :: rest =>
      let neg := Byte.eqb c "-"%byte in
      let ds := if neg || Byte.eqb c "+"%byte then rest else s in
      match ds with
      | [] => None
      | _ :: _ =>
          match digits_value 0 ds with
          | None => None
          | Some v =>
              let n := if neg then (- v)%Z else v in
              if ((- 2 ^ 63 <=? n) && (n <=? 2 ^ 63 - 1))%Z then Some n else None
          end
      end
  end.

(** [make([]byte, n)]: panics ([None]) when [n] is negative or too large
    to allocate. *)
Definition maxAlloc : Z := 2 ^ 48.

Definition make_bytes (n : Z) : option (list byte) :=
  if decide (n < 0 ∨ maxAlloc < n)%Z then None
  else Some (replicate (Z.to_nat n) x00).

(** ** handleClient *)

(** The goroutines [handleClient] starts. *)
Inductive event :=
| EvMessage (msg : list byte)    (* go handleMsg(conn, session, msg) *)
| EvDisconnect.                  (* go handleDisconn(conn, session) *)

(** The [log.Fatalln] calls, in source order. *)
Inductive fatal :=
| FatalHeaderRead (e : read_error)   (* "Client read error: " *)
| FatalLength                        (* "invalid content lenght header ..." *)
| FatalContentRead (e : read_error). (* "Error while reading incoming message: " *)

(** The content loop
    [for total < n { i, err := reader.Read(msg); ...; total += i }].
    [None]: the fuel ran out. *)
Fixpoint read_content (fuel : nat) (b : Reader) (n total : Z) (msg : list byte)
  : option ((list byte * Reader) + read_error) :=
  if decide (total < n)%Z then
    match fuel with
    | 0 => None
    | S fuel' =>
        match Read b msg with
        | inr e => Some (inr e)
        | inl (i, msg', b') => read_content fuel' b' n (total + Z.of_nat i)%Z msg'
        end
    end
  else Some (inl (msg, b)).

(** One pass through the header and content part of the loop body. *)
Inductive frame :=
| FrameOk (n : Z) (msg : list byte) (b : Reader)
| FrameFatal (why : fatal)
| FramePanic
| FrameStuck.

Definition read_frame (b : Reader) : frame :=
  match ReadSlice b newline with
  | inr e => FrameFatal (FatalHeaderRead e)
  | inl (line, b1) =>
      match Atoi (take (length line - 1) line) with
      | None => FrameFatal FatalLength
      | Some n =>
          if (n =? 0)%Z then FrameFatal FatalLength
          else
            match make_bytes n with
            | None => FramePanic
            | Some msg0 =>
                match read_content (Z.to_nat n) b1 n 0 msg0 with
                | None => FrameStuck
                | Some (inr e) => FrameFatal (FatalContentRead e)
                | Some (inl (msg, b2)) => FrameOk n msg b2
                end
            end
      end
  end.

(** How [handleClient] ends. *)
Inductive ending :=
| Returned                 (* [return] after a close frame; the deferred conn.Close() runs *)
| Exited (why : fatal)     (* log.Fatalln: os.Exit(1), deferred calls do not run *)
| Panicked                 (* run-time panic: deferred calls run, then the process dies *)
| Running.                 (* still in the loop when the fuel ran out *)

(** The [for] loop of [handleClient]; [evs] are the goroutines started so
    far. *)
Fixpoint handleClient_loop (fuel : nat) (b : Reader) (evs : list event)
  : ending * list event :=
  match fuel with
  | 0 => (Running, evs)
  | S fuel' =>
      match read_frame b with
      | FrameFatal why => (Exited why, evs)
      | FramePanic => (Panicked, evs)
      | FrameStuck => (Running, evs)
      | FrameOk n msg b' =>
          if (n =? 4)%Z && bytes_Equal msg ping then
            handleClient_loop fuel' b' evs
          else if (n =? 5)%Z && bytes_Equal msg closed then
            (Returned, evs ++ [EvDisconnect])
          else
            handleClient_loop fuel' b' (evs ++ [EvMessage msg])
      end
  end.

(** The bytes still to be read. *)
Definition pending (b : Reader) : nat :=
  length (buf b) + length (concat (incoming (rd b))).

(** [handleClient(conn, debug, handleMsg, handleDisconn)].  Each round of
    the loop consumes at least the newline of a header, so one round per
    byte and one more are enough. *)
Definition handleClient (conn : Conn) : ending * list event :=
  handleClient_loop (S (length (concat (incoming conn)))) (NewReader conn) [].

(** Observations on the way the function ended. *)
Definition process_alive (e : ending) : bool :=
  match e with
  | Returned | Running => true
  | Exited _ | Panicked => false
  end.

(** Was [conn.Close()] called? *)
Definition conn_closed (e : ending) : bool :=
  match e with
  | Returned | Panicked => true
  | Exited _ | Running => false
  end.

Definition is_disconnect (e : event) : bool :=
  match e with EvDisconnect => true | EvMessage _ => false end.

(** How many times the disconnect handler was started. *)
Definition disconnects (evs : list event) : nat :=
  length (filter (λ e, is_disconnect e = true) evs).

Definition messages (evs : list event) : list (list byte) :=
  omap (λ e, match e with EvMessage m => Some m | EvDisconnect => None end) evs.

(** [<n>\n<payload>] with [n] the decimal length of the payload. *)
Definition frame_bytes (header : string) (payload : list byte) : list byte :=
  bytes_of header ++ newline :: payload.

End Listener.

(* ===================================================================== *)
(** * Part III-b: the rest of queue.go, server.go, listener.go, util.go *)
(* ===================================================================== *)

(** ** Sequences of queue calls, the middleware and the disconnect hook *)
Module QueueExt.
Import Queue.

(** The calls of the queue's API, each followed by the goroutines it
    starts, run to their end before the next call. *)
Inductive op :=
| OpSetConn (userID connID : string)
| OpRemoveConn (userID : string)
| OpAddRequest (userID : string) (r : queuedRequest).

Definition apply_op (q : Queue) (o : op) : option (outcome Queue) :=
  match o with
  | OpSetConn u c => call_SetConn q u c
  | OpRemoveConn u => Some (Done (RemoveConn q u))
  | OpAddRequest u r => call_AddRequest q u r
  end.

Fixpoint run_ops (q : Queue) (ops : list op) : option (outcome Queue) :=
  match ops with
  | [] => Some (Done q)
  | o :: rest => and_then (apply_op q o) (λ q', run_ops q' rest)
  end.

(** What the queue keeps true between calls: a user has a mutex exactly
    when it has a connection, no mutex in the map is locked, and every
    queued slice lies within its capacity. *)
Definition inv (q : Queue) : Prop :=
  (∀ u, is_Some (conns q !! u) ↔ is_Some (mutexes q !! u))
  ∧ (∀ u m, mutexes q !! u = Some m → locked m = false)
  ∧ (∀ u rs, reqs q !! u = Some rs → wf rs).

(** The pending requests of a user; none when the user has no queue. *)
Definition pending_of (q : Queue) (u : string) : list queuedRequest :=
  default [] (elems <$> reqs q !! u).

(** [r'] is [r] after further hand-offs, all of them to connection [c]. *)
Definition sent_to (c : string) (r r' : Router) : Prop :=
  accepts r' = accepts r
  ∧ ∃ new, calls r' = calls r ++ new ∧ Forall (λ cl, c_conn cl = c) new.

(** A value of type [interface{}] as the session stores hold them. *)
Inductive iface :=
| IString (s : string)
| IOther.

(** [ctx.Conn]: the connection ID and its data store. *)
Record ConnData := mkConnData {
  conn_ID : string;
  conn_Data : gmap string iface
}.

(** The closure [Middleware] registers, the same for requests, responses
    and notifications:
    [q.SetConn(ctx.Conn.Data.Get("userid").(string), ctx.Conn.ID)].
    [Get] gives nil for a missing key, and the type assertion panics on
    anything that is not a string ([None]). *)
Definition middleware (q : Queue) (conn : ConnData) : option (Queue * list task) :=
  match conn_Data conn !! "userid" with
  | Some (IString userID) => Some (SetConn q userID (conn_ID conn))
  | Some IOther | None => None
  end.

(** The disconnect handler [NewServer] registers in server.go:
    [if id, ok := c.Session.GetOk("userid"); ok { s.queue.RemoveConn(id.(string)) }]. *)
Definition disconnHandler (q : Queue) (session : gmap string iface) : option Queue :=
  match session !! "userid" with
  | None => Some q
  | Some (IString id) => Some (RemoveConn q id)
  | Some IOther => None
  end.

(** Sample queues: "u" is connected and has one request waiting;
    in the second one nobody is connected. *)
Definition frame_queue : Queue :=
  (addRequest_closure
     (addRequest_closure (SetConn (NewQueue always_ok) "u" "c1").1 "u" reqA).1
     "v" reqB).1.

Definition two_request_queue (r : Router) : Queue :=
  (addRequest_closure
     (addRequest_closure (SetConn (NewQueue r) "u" "c1").1 "u" reqA).1
     "u" reqB).1.

Definition offline_queue : Queue :=
  (addRequest_closure (NewQueue always_ok) "u" reqA).1.

End QueueExt.

(** ** server.go: Start and Stop *)
Module Server.

(** The fields of [Server] that [Start] and [Stop] use.  [errMutex] is
    [true] while the mutex is held. *)
Record Server := mkServer {
  debug : bool;
  err : option string;
  errMutex : bool
}.

(** [NewServer] sets neither [debug] nor [err]. *)
Definition NewServer : Server :=
  {| debug := false; err := None; errMutex := false |}.

Inductive result :=
| Ret (e : option string) (s : Server)   (* the error returned, nil as [None] *)
| Exit                                   (* log.Fatalln *)
| Wait.                                  (* Lock() on the held mutex: never returns *)

(** [Start]; [started] is what [s.server.Start()] returned. *)
Definition Start (s : Server) (started : option string) : result :=
  if bool_decide (is_Some started) && debug s then Exit
  else if errMutex s then Wait
  else Ret started {| debug := debug s; err := started; errMutex := false |}.

(** [Stop]; [closed] is what [s.server.Close()] returned.  The early
    return leaves the mutex locked. *)
Definition Stop (s : Server) (closed : option string) : result :=
  if errMutex s then Wait
  else
    match err s with
    | Some e =>
        Ret (Some ("Past internal error: " +:+ e))
            {| debug := debug s; err := err s; errMutex := true |}
    | None =>
        Ret closed {| debug := debug s; err := err s; errMutex := false |}
    end.

End Server.

(** ** listener.go: Accept *)
Module Accept.
Import Listener.

(** What successive calls of [l.listener.Accept()] return. *)
Inductive accepted :=
| Accepted (conn : Conn)
| AcceptFailed (e : string).

(** [Accept]: the connections handed to [go handleClient(...)], in order,
    and the error returned; [None] when the listener has nothing more and
    the call stays blocked. *)
Fixpoint Accept (arrivals : list accepted) : list Conn * option string :=
  match arrivals with
  | [] => ([], None)
  | AcceptFailed e :: _ =>
      ([], Some ("error while accepting a new connection from a client: " +:+ e))
  | Accepted conn :: rest =>
      let '(served, e) := Accept rest in (conn :: served, e)
  end.

Definition is_failure (a : accepted) : bool :=
  match a with AcceptFailed _ => true | Accepted _ => false end.

End Accept.

(** ** util.go *)
Module Util.
Import Listener.

(** The lower-case hexadecimal digit of a value below 16. *)
Definition hex_digit (n : N) : byte :=
  match n with
  | 0 => "0" | 1 => "1" | 2 => "2" | 3 => "3" | 4 => "4" | 5 => "5"
  | 6 => "6" | 7 => "7" | 8 => "8" | 9 => "9" | 10 => "a" | 11 => "b"
  | 12 => "c" | 13 => "d" | 14 => "e" | _ => "f"
  end%N%byte.

(** [%x] of one byte: two digits, high nibble first. *)
Definition hex_byte (b : byte) : list byte :=
  [hex_digit (Byte.to_N b / 16); hex_digit (Byte.to_N b mod 16)].

(** [fmt.Sprintf("m-%x", b)]. *)
Definition Sprintf_m_x (b : list byte) : list byte :=
  bytes_of "m-" ++ flat_map hex_byte b.

(** [getID]; [random] is the outcome of [rand.Read(b)] on the 12-byte
    buffer: the buffer filled, or an error. *)
Definition getID (random : list byte + string) : list byte * option string :=
  match random with
  | inr e => ([], Some e)
  | inl b => (Sprintf_m_x b, None)
  end.

(** A lower-case hexadecimal digit. *)
Definition is_lower_hex (c : byte) : bool :=
  is_digit c || ((97 <=? Byte.to_N c)%N && (Byte.to_N c <=? 102)%N).

(** [var letters = []rune(". !abc...xyzABC...XYZ")]. *)
Definition letters : list byte :=
  bytes_of ". !abcdefghijklmnopqrstuvwxyzABCDEFGHIJKLMNOPQRSTUVWXYZ".

(** [randString(n)].  The generator is given by its raw draws, [draw i]
    for the [i]-th call; [Intn(k)] returns the draw reduced below [k].
    [make([]rune, n)] panics ([None]) for a negative [n] and for an [n]
    whose 4-byte runes exceed what can be allocated. *)
Definition Intn (draw : nat → nat) (i k : nat) : nat := draw i mod k.

Definition randString (draw : nat → nat) (n : Z) : option (list byte) :=
  if decide (n < 0 ∨ maxAlloc < 4 * n)%Z then None
  else Some ((λ i, default x00 (letters !! Intn draw i (length letters)))
               <$> seq 0 (Z.to_nat n)).

End Util.

(* ===================================================================== *)
(** * Part IV: properties of the directory and the queue *)
(* ===================================================================== *)

Module QueueProps.
Import Queue.

(** *** The directory *)

Lemma SetConn_absent (q : Queue) (u c : string) :
  conns q !! u = None →
  SetConn q u c =
    ({| conns := <[u := c]> (conns q); router := router q; reqs := reqs q;
        mutexes := <[u := zeroMutex]> (mutexes q) |}, [TProcessQueue u]).
Proof. intros H. unfold SetConn. by rewrite H. Qed.

Lemma SetConn_present (q : Queue) (u c c0 : string) :
  conns q !! u = Some c0 → SetConn q u c = (q, []).
Proof. intros H. unfold SetConn. by rewrite H. Qed.

(** C8. [SetConn] is idempotent and the first writer wins.  With no
    entry for [u], the call maps [u] to [c], leaves every other user's
    entry and all queued requests as they were, and starts one drain
    [processQueue(u)].  With an entry for [u] already there, the call
    changes nothing and starts nothing.  Hence a second call, whatever
    its connection, never overwrites the entry the first one left. *)
Theorem SetConn_first_writer_wins (q : Queue) (u c : string) :
  (conns q !! u = None →
     (SetConn q u c).2 = [TProcessQueue u]
     ∧ conns (SetConn q u c).1 !! u = Some c
     ∧ (∀ v, v ≠ u → conns (SetConn q u c).1 !! v = conns q !! v)
     ∧ reqs (SetConn q u c).1 = reqs q)
  ∧ (∀ c0, conns q !! u = Some c0 → SetConn q u c = (q, []))
  ∧ (∀ c2, SetConn (SetConn q u c).1 u c2 = ((SetConn q u c).1, [])
           ∧ conns (SetConn q u c).1 !! u = Some (default c (conns q !! u))).
Proof.
  split; [|split].
  - intros Hnone. rewrite (SetConn_absent _ _ _ Hnone). simpl.
    repeat split.
    + apply lookup_insert_eq.
    + intros v Hv. by apply lookup_insert_ne.
  - intros c0 Hsome. by apply SetConn_present with c0.
  - intros c2. destruct (conns q !! u) as [c0|] eqn:Hu.
    + rewrite (SetConn_present _ _ _ _ Hu). simpl.
      split; [by apply SetConn_present with c0 | done].
    + rewrite (SetConn_absent _ _ _ Hu). simpl.
      split; [|apply lookup_insert_eq].
      apply SetConn_present with c. simpl. apply lookup_insert_eq.
Qed.

(** C10. [RemoveConn(u)] deletes the directory entry of [u] and no other;
    the map of queued requests is the same map afterwards.  A later
    [SetConn(u, c2)] therefore finds no entry, maps [u] to [c2] and starts
    a drain over the very requests that were pending. *)
Theorem RemoveConn_keeps_requests (q : Queue) (u : string) :
  reqs (RemoveConn q u) = reqs q
  ∧ router (RemoveConn q u) = router q
  ∧ conns (RemoveConn q u) !! u = None
  ∧ (∀ v, v ≠ u → conns (RemoveConn q u) !! v = conns q !! v)
  ∧ (∀ c2, (SetConn (RemoveConn q u) u c2).2 = [TProcessQueue u]
           ∧ conns (SetConn (RemoveConn q u) u c2).1 !! u = Some c2
           ∧ reqs (SetConn (RemoveConn q u) u c2).1 = reqs q).
Proof.
  repeat split; simpl.
  - apply lookup_delete_eq.
  - intros v Hv. by apply lookup_delete_ne.
  - unfold SetConn. simpl. by rewrite lookup_delete_eq.
  - unfold SetConn. simpl. rewrite lookup_delete_eq. simpl. apply lookup_insert_eq.
  - unfold SetConn. simpl. by rewrite lookup_delete_eq.
Qed.

(** *** The drain *)

Lemma slice_lit_elems r : wf (slice_lit r) ∧ elems (slice_lit r) = [r].
Proof. split; [unfold wf, cap; simpl; lia | done]. Qed.

(** [append(s, r)] puts [r] behind the elements of [s]. *)
Lemma go_append_elems s r :
  wf s → wf (go_append s r) ∧ elems (go_append s r) = elems s ++ [r].
Proof.
  unfold wf, go_append, elems, cap. intros Hwf.
  destruct (decide (len s < length (arr s))) as [Hlt|Hge]; simpl.
  - split; [rewrite length_insert; lia|].
    rewrite (take_S_r _ _ r); [|by apply list_lookup_insert_eq].
    by rewrite take_insert_ge.
  - assert (len s = length (arr s)) as Heq by lia.
    split; [rewrite length_app, length_take; simpl; lia|].
    rewrite cons_middle, app_assoc.
    rewrite take_app_length'; [done|].
    rewrite length_app, length_take. simpl. lia.
Qed.

Lemma remove_at_wf i s s' : remove_at i s = Some s' → wf s → wf s'.
Proof.
  unfold wf, remove_at, cap. intros H Hwf.
  destruct (decide _) as [[Hi Hl]|]; [|discriminate].
  injection H as <-. simpl.
  rewrite length_insert, !length_app, !length_take, !length_drop. lia.
Qed.

(** The removal statement by itself is right: it deletes element [i]. *)
Lemma remove_at_elems i s s' :
  remove_at i s = Some s' → wf s → elems s' = delete i (elems s).
Proof.
  unfold wf, remove_at, elems, cap. intros H Hwf.
  destruct (decide _) as [[Hi Hl]|]; [|discriminate].
  injection H as <-. simpl.
  rewrite take_insert_ge by lia.
  rewrite app_assoc, take_app_length'.
  - rewrite delete_take_drop, take_take, skipn_firstn_comm.
    replace (i + 1) with (S i) by lia.
    by replace (i `min` len s) with i by lia.
  - rewrite length_app, !length_take, length_drop. lia.
Qed.

Lemma SendRequest_accepts_all r c req :
  accepts_all r →
  (SendRequest r c req).2 = true ∧ accepts_all (SendRequest r c req).1.
Proof. intros H. unfold SendRequest. simpl. split; [apply H | exact H]. Qed.

Lemma remove_at_Some i s s' :
  remove_at i s = Some s' → len s ≤ cap s →
  i + 1 ≤ len s ∧ len s' = len s - 1 ∧ cap s' = cap s.
Proof.
  unfold remove_at, cap. intros H Hwf.
  destruct (decide _) as [[Hi Hl]|]; [|discriminate].
  injection H as <-. simpl. repeat split; [lia|].
  rewrite length_insert, !length_app, !length_take, length_drop, length_drop.
  lia.
Qed.

Lemma remove_at_None i s :
  len s < i + 1 → remove_at i s = None.
Proof.
  intros H. unfold remove_at. destruct (decide _) as [[_ Hl]|]; [lia|done].
Qed.

(** The index of the range loop runs over the initial length while the
    slice shrinks by one at every success: as soon as [i + 1] exceeds the
    current length the slice expression [reqs[i+1:]] is out of range. *)
Lemma range_loop_overruns (k : nat) :
  ∀ r c i s,
    accepts_all r → 0 < k → i + k ≤ cap s → len s ≤ cap s →
    len s + 1 < i + 2 * k →
    ∃ r', range_loop r c k i s = Panic r'.
Proof.
  induction k as [|k IH]; intros r c i s Hacc Hk Hcap Hwf Hlen; [lia|].
  cbn [range_loop]. destruct (arr s !! i) as [req|] eqn:Hreq; [|by eexists].
  destruct (SendRequest_accepts_all r c req Hacc) as [Hok Hacc'].
  destruct (SendRequest r c req) as [r1 ok]. simpl in Hok, Hacc'. subst ok.
  destruct (remove_at i s) as [s'|] eqn:Hrm; [|by eexists].
  destruct (remove_at_Some _ _ _ Hrm Hwf) as (Hi & Hl' & Hc').
  apply IH; [done | lia | lia | lia | lia].
Qed.

(** Whatever the router answers, a drain over two or more requests does
    not reach the end of the loop: a refusal is fatal, and without a
    refusal the index overruns the shrinking slice. *)
Lemma range_loop_never_done (k : nat) :
  ∀ r c i s,
    0 < k → i + k ≤ cap s → len s ≤ cap s → len s + 1 < i + 2 * k →
    ∀ x, range_loop r c k i s ≠ Done x.
Proof.
  induction k as [|k IH]; intros r c i s Hk Hcap Hwf Hlen x; [lia|].
  cbn [range_loop]. destruct (arr s !! i) as [req|]; [|done].
  destruct (SendRequest r c req) as [r1 [|]]; [|done].
  destruct (remove_at i s) as [s'|] eqn:Hrm; [|done].
  destruct (remove_at_Some _ _ _ Hrm Hwf) as (Hi & Hl' & Hc').
  apply IH; lia.
Qed.

(** With two or more requests pending for a connected user,
    [processQueue] never runs to its end, whatever the router answers. *)
Lemma drain_never_completes (q : Queue) (u c : string) (m : RWMutex) (rs : slice) :
  conns q !! u = Some c →
  mutexes q !! u = Some m →
  reqs q !! u = Some rs →
  len rs ≤ cap rs → 2 ≤ len rs →
  ∀ q', processQueue q u ≠ Done q'.
Proof.
  intros Hc Hm Hr Hwf H2 q'. unfold processQueue. rewrite Hc, Hm, Hr.
  destruct (locked m); [done|].
  pose proof (range_loop_never_done (len rs) (router q) c 0 rs) as Hnever.
  destruct (range_loop (router q) c (len rs) 0 rs) as [[r' rs']| | |]; [|done..].
  exfalso. apply (Hnever ltac:(lia) ltac:(lia) Hwf ltac:(lia) (r', rs')). done.
Qed.

(** With two or more requests queued and a router that accepts them all,
    [processQueue] panics. *)
Lemma processQueue_panics (q : Queue) (u c : string) (rs : slice) :
  conns q !! u = Some c →
  mutexes q !! u = Some zeroMutex →
  reqs q !! u = Some rs →
  len rs ≤ cap rs → 2 ≤ len rs →
  accepts_all (router q) →
  ∃ r', processQueue q u = Panic r'.
Proof.
  intros Hc Hm Hr Hwf H2 Hacc. unfold processQueue. rewrite Hc, Hm, Hr. simpl.
  destruct (range_loop_overruns (len rs) (router q) c 0 rs) as [r' ->];
    [done | lia | lia | lia | lia |].
  by eexists.
Qed.

(** X6. Whatever is queued, a refused first hand-off ends the process
    through [log.Fatal], after that one attempt. *)
Lemma processQueue_fatal (q : Queue) (u c : string) (rs : slice) (req : queuedRequest) :
  conns q !! u = Some c →
  mutexes q !! u = Some zeroMutex →
  reqs q !! u = Some rs →
  0 < len rs → arr rs !! 0 = Some req →
  accepts (router q) (calls (router q)) c req = false →
  ∃ r', processQueue q u = Fatal r' ∧ attempted r' = attempted (router q) ++ [req].
Proof.
  intros Hc Hm Hr Hlen Hreq Hno. unfold processQueue. rewrite Hc, Hm, Hr. simpl.
  destruct (len rs) as [|k]; [lia|]. simpl. rewrite Hreq.
  unfold SendRequest. rewrite Hno. eexists. split; [done|].
  unfold attempted. simpl. by rewrite fmap_app.
Qed.

(** A queue of one request is handed off and emptied. *)
Lemma drain_single :
  ∃ q, and_then (call_AddRequest (NewQueue always_ok) "u" reqA)
         (λ q1, call_SetConn q1 "u" "c1") = Some (Done q)
       ∧ attempted (router q) = [reqA]
       ∧ (elems <$> reqs q !! "u") = Some [].
Proof. eexists. split; [vm_compute; reflexivity|]. split; reflexivity. Qed.

(** The three requests are queued in the order of the calls. *)
Lemma enqueue_ABC_queued :
  ∃ q, enqueue_ABC always_ok = Some (Done q)
       ∧ (elems <$> reqs q !! "u") = Some [reqA; reqB; reqC]
       ∧ attempted (router q) = [].
Proof. eexists. split; [vm_compute; reflexivity|]. split; reflexivity. Qed.

(** C1 (the code departs from it).  With [A; B; C] queued for "u" and a
    router that accepts every hand-off, the drain started by
    [SetConn("u", "c1")] hands off A, then C, then the zero request, and
    then panics on the slice expression [reqs[i+1:]]: B is never
    attempted and the process dies. *)
Theorem drain_ABC_skips_B :
  ∃ r, enqueue_ABC_then_SetConn always_ok = Some (Panic r)
       ∧ attempted r = [reqA; reqC; zeroRequest]
       ∧ delivered r ≠ [reqA; reqB; reqC].
Proof.
  eexists. split; [vm_compute; reflexivity|].
  split; [reflexivity|]. intros H. vm_compute in H. discriminate H.
Qed.

(** C3 (the code departs from it).  With [A; B; C] queued for "u" and a
    router that refuses the hand-off, the drain does not stop and keep
    the queue: [log.Fatal] ends the process at the first refusal. *)
Theorem drain_failure_is_fatal :
  ∃ r, enqueue_ABC_then_SetConn always_fail = Some (Fatal r)
       ∧ attempted r = [reqA]
       ∧ delivered r = [].
Proof. eexists. split; [vm_compute; reflexivity|]. split; reflexivity. Qed.

End QueueProps.

(* ===================================================================== *)
(** * Part V: the per-user lock under interleaving *)
(* ===================================================================== *)

Module ConcProps.
Import Queue Conc.

Lemma SetConn_none_locked q u c :
  none_locked q → none_locked (SetConn q u c).1.
Proof.
  intros Hq. unfold SetConn. destruct (conns q !! u); [done|].
  intros v m. simpl. rewrite lookup_insert. case_decide.
  - by intros [= <-].
  - apply Hq.
Qed.

Lemma goroutine_step_mutexes q g q' g' new :
  goroutine_step q g = Some (q', g', new) → mutexes q' = mutexes q.
Proof.
  destruct g as [u p|u r|]; simpl; [|by intros [= <- _ _]|done].
  destruct p as [|c|c m|c m|m|]; simpl.
  - destruct (conns q !! u); by intros [= <- _ _].
  - destruct (mutexes q !! u); [by intros [= <- _ _]|done].
  - destruct (locked m); [done|by intros [= <- _ _]].
  - destruct (reqs q !! u) as [rs|]; [|by intros [= <- _ _]].
    destruct (range_loop _ _ _ _ _) as [[r' rs']| | |]; [|done..].
    by intros [= <- _ _].
  - by intros [= <- _ _].
  - done.
Qed.

Lemma exec_none_locked s a s' :
  exec s a = Some s' → none_locked (shared s) → none_locked (shared s').
Proof.
  destruct a as [u c|u r|i]; simpl.
  - intros H Hq. pose proof (SetConn_none_locked (shared s) u c Hq) as Hq'.
    destruct (SetConn (shared s) u c) as [q' ts]. by injection H as <-.
  - by intros [= <-].
  - destruct (pool s !! i) as [g|]; [|done].
    destruct (goroutine_step (shared s) g) as [[[q' g'] new]|] eqn:Hg; [|done].
    intros [= <-] Hq. simpl. unfold none_locked.
    by rewrite (goroutine_step_mutexes _ _ _ _ _ Hg).
Qed.

Lemma run_none_locked sched :
  ∀ s s', run s sched = Some s' → none_locked (shared s) → none_locked (shared s').
Proof.
  induction sched as [|a sched IH]; intros s s'; simpl.
  - by intros [= <-].
  - destruct (exec s a) as [s1|] eqn:Ha; [|done].
    intros Hrun Hq. eapply IH; [done|]. by eapply exec_none_locked.
Qed.

(** X11. The mutex a goroutine locks is its own copy: in every state the
    system can reach, every mutex in the map is unlocked, so [Lock()]
    never makes a goroutine wait. *)
Lemma stored_mutex_never_locked (r : Router) (s : system) :
  reachable r s → none_locked (shared s).
Proof.
  intros [sched Hrun]. eapply run_none_locked; [done|].
  intros u m. simpl. by rewrite lookup_empty.
Qed.

(** C2 (the code departs from it).  After [SetConn("u", "c1")] and an
    [AddRequest] for "u", the two goroutines [processQueue("u")] they
    started can both be inside the drain body at once: each fetched the
    unlocked mutex from the map and locked its own copy. *)
Theorem two_drains_at_once :
  ∃ s, reachable always_ok s ∧ draining "u" s = 2.
Proof.
  destruct (run (start always_ok) race) as [s|] eqn:Hrun;
    [|vm_compute in Hrun; discriminate Hrun].
  exists s. split; [by exists race|].
  vm_compute in Hrun. injection Hrun as <-. reflexivity.
Qed.

End ConcProps.

(* ===================================================================== *)
(** * Part VI: properties of handleClient *)
(* ===================================================================== *)

Module ListenerProps.
Import Listener.

(** *** Every run of the loop ends

    The bytes still to be read, in the buffer and on the connection, are
    the measure: a frame that is read takes at least its newline. *)

Lemma IndexByte_lt (s : list byte) (c : byte) (i : nat) :
  IndexByte s c = Some i → i < length s.
Proof.
  revert i. induction s as [|x s IH]; intros i; simpl; [done|].
  destruct (Byte.eqb x c).
  - intros [= <-]. lia.
  - destruct (IndexByte s c) as [j|]; simpl; [|done].
    intros [= <-]. specialize (IH j eq_refl). lia.
Qed.

Lemma take_group_spec (cs : list (list byte)) (n : nat) data rest :
  take_group cs n = Some (data, rest) → 0 < n →
  0 < length data ∧ length data ≤ n
  ∧ length (concat cs) = length data + length (concat rest).
Proof.
  intros H Hn. induction cs as [|chunk cs IH]; simpl in H; [done|].
  destruct chunk as [|x chunk]; [by apply IH|].
  destruct (decide (length (x :: chunk) ≤ n)) as [Hle|Hgt].
  - injection H as <- <-. simpl in *. rewrite length_app. lia.
  - injection H as <- <-. rewrite length_take.
    cbn [concat]. rewrite !length_app, length_drop. simpl in *. lia.
Qed.

Lemma conn_Read_spec (c c' : Conn) (n : nat) data :
  conn_Read c n = inl (data, c') → 0 < n →
  0 < length data ∧ length data ≤ n
  ∧ length (concat (incoming c)) = length data + length (concat (incoming c')).
Proof.
  unfold conn_Read. destruct (take_group (incoming c) n) as [[d rest]|] eqn:Hg; [|done].
  intros [= <- <-] Hn. simpl. by apply take_group_spec.
Qed.

Lemma fill_spec (b b' : Reader) :
  fill b = inl b' → length (buf b) < bufSize →
  pending b' = pending b ∧ length (buf b) < length (buf b').
Proof.
  unfold fill, pending.
  destruct (conn_Read (rd b) (bufSize - length (buf b))) as [[data c']|e] eqn:Hr; [|done].
  intros [= <-] Hroom. simpl.
  destruct (conn_Read_spec _ _ _ _ Hr) as (Hpos & _ & Hlen); [lia|].
  rewrite length_app. lia.
Qed.

Lemma ReadSlice_loop_spec (fuel : nat) :
  ∀ b delim line b',
    ReadSlice_loop fuel b delim = inl (line, b') →
    0 < length line ∧ pending b' + length line = pending b.
Proof.
  induction fuel as [|fuel IH]; intros b delim line b'; cbn [ReadSlice_loop];
    (destruct (IndexByte (buf b) delim) as [i|] eqn:Hi;
     [ intros [= <- <-]; apply IndexByte_lt in Hi; unfold pending; simpl;
       rewrite length_take, length_drop; lia
     | destruct (decide (bufSize ≤ length (buf b))) as [|Hroom]; [done|] ]);
    [done|].
  destruct (fill b) as [b1|e] eqn:Hfill; [|done].
  intros Hrec. destruct (fill_spec _ _ Hfill) as [Hp _]; [lia|].
  destruct (IH _ _ _ _ Hrec) as [Hpos Hlen]. lia.
Qed.

(** The rounds of [ReadSlice] never outlast the buffer: the result does
    not depend on the fuel once it exceeds the free room. *)
Lemma ReadSlice_loop_fuel (fuel1 : nat) :
  ∀ fuel2 b delim,
    bufSize - length (buf b) < fuel1 → bufSize - length (buf b) < fuel2 →
    ReadSlice_loop fuel1 b delim = ReadSlice_loop fuel2 b delim.
Proof.
  induction fuel1 as [|fuel1 IH]; intros fuel2 b delim H1 H2; [lia|].
  destruct fuel2 as [|fuel2]; [lia|]. cbn [ReadSlice_loop].
  destruct (IndexByte (buf b) delim); [done|].
  destruct (decide (bufSize ≤ length (buf b))) as [|Hroom]; [done|].
  destruct (fill b) as [b1|e] eqn:Hfill; [|done].
  destruct (fill_spec _ _ Hfill) as [_ Hgrow]; [lia|].
  apply IH; lia.
Qed.

Lemma Read_spec (b b' : Reader) (p p' : list byte) (i : nat) :
  Read b p = inl (i, p', b') →
  length p' = length p ∧ pending b' + i = pending b ∧ (0 < length p → 0 < i).
Proof.
  unfold Read, pending.
  destruct (decide (length p = 0)) as [H0|Hpos]; [intros [= <- <- <-]; lia|].
  destruct (buf b) as [|x rest] eqn:Hbuf.
  - destruct (decide (bufSize ≤ length p)) as [Hbig|Hsmall].
    + destruct (conn_Read (rd b) (length p)) as [[data c']|e] eqn:Hr; [|done].
      intros [= <- <- <-]. simpl.
      destruct (conn_Read_spec _ _ _ _ Hr) as (Hd & Hn & Hlen); [lia|].
      rewrite length_app, length_drop. lia.
    + destruct (conn_Read (rd b) bufSize) as [[data c']|e] eqn:Hr; [|done].
      intros [= <- <- <-]. simpl.
      destruct (conn_Read_spec _ _ _ _ Hr) as (Hd & Hn & Hlen); [lia|].
      rewrite length_app, length_take, !length_drop. lia.
  - intros [= <- <- <-]. simpl.
    rewrite length_app, length_take, !length_drop. simpl. lia.
Qed.

Lemma read_content_spec (fuel : nat) :
  ∀ b n total msg,
    length msg = Z.to_nat n → (0 ≤ total)%Z → Z.to_nat (n - total) ≤ fuel →
    read_content fuel b n total msg ≠ None
    ∧ ∀ msg' b', read_content fuel b n total msg = Some (inl (msg', b')) →
                 pending b' ≤ pending b ∧ length msg' = length msg.
Proof.
  induction fuel as [|fuel IH]; intros b n total msg Hlen Htot Hfuel;
    cbn [read_content]; destruct (decide (total < n)%Z) as [Hlt|Hge];
    try lia; try (split; [done | intros ? ? [= <- <-]; lia]).
  destruct (Read b msg) as [[[i msg1] b1]|e] eqn:Hread; [|by split].
  destruct (Read_spec _ _ _ _ _ Hread) as (Hl1 & Hp1 & Hi1).
  destruct (IH b1 n (total + Z.of_nat i)%Z msg1) as [Hsome Hres]; [lia..|].
  split; [done|]. intros msg' b' Hrec.
  destruct (Hres _ _ Hrec). lia.
Qed.

(** The frame reader always gives an answer, and a frame that was read
    has consumed at least one byte. *)
Lemma read_frame_spec (b : Reader) :
  read_frame b ≠ FrameStuck
  ∧ ∀ n msg b', read_frame b = FrameOk n msg b' → pending b' < pending b.
Proof.
  unfold read_frame, ReadSlice.
  destruct (ReadSlice_loop (S bufSize) b newline) as [[line b1]|e] eqn:Hline;
    [|by split].
  destruct (ReadSlice_loop_spec _ _ _ _ _ Hline) as [Hpos Hp1].
  destruct (Atoi _) as [n|]; [|by split].
  destruct (n =? 0)%Z; [by split|].
  unfold make_bytes. destruct (decide _) as [|Hn]; [by split|].
  destruct (read_content_spec (Z.to_nat n) b1 n 0 (replicate (Z.to_nat n) x00))
    as [Hsome Hres]; [by rewrite length_replicate | lia | lia |].
  destruct (read_content _ _ _ _ _) as [[[msg b2]|e]|]; [|by split|done].
  split; [done|]. intros ? ? ? [= <- <- <-].
  destruct (Hres _ _ eq_refl). lia.
Qed.

Lemma handleClient_loop_ends (fuel : nat) :
  ∀ b evs, pending b < fuel → (handleClient_loop fuel b evs).1 ≠ Running.
Proof.
  induction fuel as [|fuel IH]; intros b evs Hfuel; [lia|].
  cbn [handleClient_loop].
  destruct (read_frame_spec b) as [Hstuck Hless].
  destruct (read_frame b) as [n msg b'| | |]; [|done..].
  specialize (Hless _ _ _ eq_refl).
  destruct ((n =? 4)%Z && bytes_Equal msg ping); [apply IH; lia|].
  destruct ((n =? 5)%Z && bytes_Equal msg closed); [done|apply IH; lia].
Qed.

(** [handleClient] ends on every connection that delivers finitely many
    bytes: it returns, exits the process, or panics. *)
Lemma handleClient_ends (conn : Conn) : (handleClient conn).1 ≠ Running.
Proof. apply handleClient_loop_ends. unfold pending. simpl. lia. Qed.

(** The only ending that leaves the process alive is the return after a
    close frame. *)
Lemma alive_only_after_close (conn : Conn) :
  process_alive (handleClient conn).1 = true → (handleClient conn).1 = Returned.
Proof.
  pose proof (handleClient_ends conn) as H.
  by destruct (handleClient conn).1.
Qed.

Lemma fatal_frame_exits (b : Reader) (why : fatal) (fuel : nat) (evs : list event) :
  read_frame b = FrameFatal why →
  handleClient_loop (S fuel) b evs = (Exited why, evs).
Proof. intros H. simpl. by rewrite H. Qed.

(** A frame that was read whole and is the close frame: the disconnect
    handler is started once, the function returns and the connection is
    closed by the deferred call. *)
Lemma close_frame_disconnects_once (b b' : Reader) (fuel : nat) (evs : list event) :
  read_frame b = FrameOk 5 closed b' →
  handleClient_loop (S fuel) b evs = (Returned, evs ++ [EvDisconnect])
  ∧ disconnects (evs ++ [EvDisconnect]) = S (disconnects evs)
  ∧ conn_closed Returned = true.
Proof.
  intros H. simpl. rewrite H. repeat split.
  unfold disconnects. rewrite filter_app, length_app. simpl. lia.
Qed.

(** A ping frame that lies whole in the buffer is read as [ping], and a
    close frame as [close], whatever follows them. *)
Lemma read_frame_ping_buffered (c : Conn) (rest : list byte) :
  read_frame {| rd := c; buf := frame_bytes "4" ping ++ rest |}
  = FrameOk 4 ping {| rd := c; buf := rest |}.
Proof. reflexivity. Qed.

Lemma read_frame_close_buffered (c : Conn) (rest : list byte) :
  read_frame {| rd := c; buf := frame_bytes "5" closed ++ rest |}
  = FrameOk 5 closed {| rd := c; buf := rest |}.
Proof. reflexivity. Qed.

(** C4 (the code departs from it).  A header that never ends, a header
    that is not a number, a zero length, a payload cut short by the end
    of the stream or by the read deadline, and an idle connection: each
    reaches a [log.Fatalln], which ends the process, not only the
    connection. *)
Theorem rejected_input_ends_process :
  handleClient (mkConn [bytes_of "12"] ErrEOF) = (Exited (FatalHeaderRead ErrEOF), [])
  ∧ handleClient (mkConn [frame_bytes "abc" []] ErrEOF) = (Exited FatalLength, [])
  ∧ handleClient (mkConn [frame_bytes "0" []] ErrEOF) = (Exited FatalLength, [])
  ∧ handleClient (mkConn [frame_bytes "4" (bytes_of "ab")] ErrEOF)
    = (Exited (FatalContentRead ErrEOF), [])
  ∧ handleClient (mkConn [frame_bytes "4" (bytes_of "ab")] ErrTimeout)
    = (Exited (FatalContentRead ErrTimeout), [])
  ∧ handleClient (mkConn [] ErrTimeout) = (Exited (FatalHeaderRead ErrTimeout), [])
  ∧ ∀ why, process_alive (Exited why) = false.
Proof. repeat split; vm_compute; reflexivity. Qed.

(** C5 (the code departs from it).  The frame [4\nabcd] arriving as
    [4\nab] and then [cd]: every [Read] writes at the start of the
    message buffer, so the second read overwrites the first and the
    handler receives [cd\0\0].  Arriving in one piece, the same frame is
    decoded as [abcd]. *)
Theorem fragmented_payload_misassembled :
  messages (handleClient (mkConn [frame_bytes "4" (bytes_of "ab"); bytes_of "cd"] ErrEOF)).2
    = [bytes_of "cd" ++ [x00; x00]]
  ∧ messages (handleClient (mkConn [frame_bytes "4" (bytes_of "abcd")] ErrEOF)).2
    = [bytes_of "abcd"].
Proof. split; vm_compute; reflexivity. Qed.

(** The same happens without any fragmentation by the network once the
    frame does not fit the reader's buffer: of a 5000-byte payload sent in
    one piece, the buffer takes the header and 4091 bytes, and the second
    [Read] puts the other 909 at the start of the message. *)
Lemma large_frame_misassembled :
  messages (handleClient
              (mkConn [frame_bytes "5000"
                         (replicate 4091 "a"%byte ++ replicate 909 "b"%byte)] ErrEOF)).2
  = [replicate 909 "b"%byte ++ replicate 3182 "a"%byte ++ replicate 909 x00].
Proof. vm_compute. reflexivity. Qed.

(** C6 (the code departs from it).  On a malformed header, on a read
    error and on an idle timeout the disconnect handler is not started
    and [conn.Close()] is not called: the process has exited.  Only the
    close frame starts the handler, once. *)
Theorem no_disconnect_on_error :
  (let r := handleClient (mkConn [frame_bytes "x" []] ErrEOF) in
   disconnects r.2 = 0 ∧ conn_closed r.1 = false)
  ∧ (let r := handleClient (mkConn [frame_bytes "4" (bytes_of "ab")] ErrEOF) in
     disconnects r.2 = 0 ∧ conn_closed r.1 = false)
  ∧ (let r := handleClient (mkConn [] ErrTimeout) in
     disconnects r.2 = 0 ∧ conn_closed r.1 = false)
  ∧ (let r := handleClient (mkConn [frame_bytes "5" closed] ErrEOF) in
     disconnects r.2 = 1 ∧ conn_closed r.1 = true).
Proof. repeat split; vm_compute; reflexivity. Qed.

(** C7. A header that [Atoi] reads as a negative number passes the check
    [err != nil || n == 0]: the frame is not refused as a bad length, and
    [make([]byte, n)] panics. *)
Theorem negative_length_panics (b b1 : Reader) (line : list byte) (n : Z)
    (fuel : nat) (evs : list event) :
  ReadSlice b newline = inl (line, b1) →
  Atoi (take (length line - 1) line) = Some n →
  (n < 0)%Z →
  read_frame b = FramePanic
  ∧ handleClient_loop (S fuel) b evs = (Panicked, evs).
Proof.
  intros Hline Hn Hneg.
  assert (read_frame b = FramePanic) as Hframe.
  { unfold read_frame. rewrite Hline, Hn.
    destruct (n =? 0)%Z eqn:H0; [lia|].
    unfold make_bytes. destruct (decide _) as [_|Hge]; [done|lia]. }
  split; [done|]. simpl. by rewrite Hframe.
Qed.

Lemma negative_length_panics_witness :
  Atoi (bytes_of "-1") = Some (-1)%Z
  ∧ read_frame (NewReader (mkConn [frame_bytes "-1" []] ErrEOF)) = FramePanic
  ∧ handleClient_loop 1 (NewReader (mkConn [frame_bytes "-1" []] ErrEOF)) []
    = (Panicked, []).
Proof.
  split; [reflexivity|].
  apply (negative_length_panics
           (NewReader (mkConn [frame_bytes "-1" []] ErrEOF))
           (mkReader (mkConn [] ErrEOF) [])
           (frame_bytes "-1" []) (-1)%Z 0 []).
  - vm_compute. reflexivity.
  - vm_compute. reflexivity.
  - lia.
Defined.

(** A frame read as the four bytes [ping] starts no handler and does not
    end the loop: the next round reads the next frame, with the same
    goroutines started as before. *)
Lemma ping_frame_is_skipped (b b' : Reader) (fuel : nat) (evs : list event) :
  read_frame b = FrameOk 4 ping b' →
  handleClient_loop (S fuel) b evs = handleClient_loop fuel b' evs.
Proof. intros H. simpl. by rewrite H. Qed.

(** C9 (the code departs from it).  The ping frame [4\nping] arriving as
    [4\npi] and then [ng], with a close frame behind it: the second read
    overwrites the first (the defect of C5), the comparison with [ping]
    fails and the message handler is started with [ng\0\0].  Arriving in
    one piece, the same ping frame starts no handler and the loop goes on
    to the close frame. *)
Theorem split_ping_reaches_handler :
  handleClient
    (mkConn [frame_bytes "4" (bytes_of "pi"); bytes_of "ng"; frame_bytes "5" closed]
       ErrEOF)
  = (Returned, [EvMessage (bytes_of "ng" ++ [x00; x00]); EvDisconnect])
  ∧ handleClient (mkConn [frame_bytes "4" ping; frame_bytes "5" closed] ErrEOF)
    = (Returned, [EvDisconnect]).
Proof. split; vm_compute; reflexivity. Qed.

End ListenerProps.

(* ===================================================================== *)
(** * Part VII: further properties of the queue *)
(* ===================================================================== *)

Module QueueExtProps.
Import Queue QueueExt.

Lemma sent_to_refl c r : sent_to c r r.
Proof. split; [done|]. exists []. by rewrite app_nil_r. Qed.

Lemma sent_to_step c r req r' :
  sent_to c (SendRequest r c req).1 r' → sent_to c r r'.
Proof.
  unfold SendRequest. intros [Hacc (new & Hcalls & Hall)]. simpl in *.
  split; [done|]. eexists (_ :: new). split.
  - rewrite Hcalls. by rewrite <- app_assoc.
  - by constructor.
Qed.

(** The loop talks to the router about connection [connID] only, and a
    slice within its capacity stays so. *)
Lemma range_loop_spec (k : nat) :
  ∀ r c i s,
    match range_loop r c k i s with
    | Done (r', s') => sent_to c r r' ∧ (wf s → wf s')
    | Fatal r' | Panic r' => sent_to c r r'
    | Blocked => False
    end.
Proof.
  induction k as [|k IH]; intros r c i s; cbn [range_loop].
  { split; [apply sent_to_refl | done]. }
  destruct (arr s !! i) as [req|]; [|apply sent_to_refl].
  pose proof (sent_to_step c r req) as Hstep.
  destruct (SendRequest r c req) as [r1 [|]]; simpl in Hstep.
  - destruct (remove_at i s) as [s'|] eqn:Hrm.
    + specialize (IH r1 c (S i) s').
      destruct (range_loop r1 c k (S i) s') as [[r2 s2]|r2|r2|]; [|auto..].
      destruct IH as [Hsent Hwf]. split; [auto|].
      intros Hs. apply Hwf. by eapply QueueProps.remove_at_wf.
    + apply Hstep, sent_to_refl.
  - apply Hstep, sent_to_refl.
Qed.

Lemma processQueue_frame_aux (q : Queue) (u c : string) :
  conns q !! u = Some c →
  match processQueue q u with
  | Done q' =>
      sent_to c (router q) (router q')
      ∧ conns q' = conns q ∧ mutexes q' = mutexes q
      ∧ ∀ v, v ≠ u → reqs q' !! v = reqs q !! v
  | Fatal r' | Panic r' => sent_to c (router q) r'
  | Blocked => True
  end.
Proof.
  intros Hc. unfold processQueue. rewrite Hc.
  destruct (mutexes q !! u) as [m|]; [|apply sent_to_refl].
  destruct (locked m); [done|].
  destruct (reqs q !! u) as [rs|].
  - pose proof (range_loop_spec (len rs) (router q) c 0 rs) as H.
    destruct (range_loop _ _ _ _ _) as [[r' rs']|r'|r'|]; [|done..].
    destruct H as [Hsent _]. simpl. do 3 (split; [done|]).
    intros v Hv. by rewrite lookup_insert_ne.
  - split; [apply sent_to_refl | done].
Qed.

(** X7. [processQueue] for a user bound to connection [c] hands requests
    to [c] and to no other connection, whichever way it ends; when it
    completes, the directory, the mutexes and the queues of the other
    users are as before. *)
Theorem processQueue_frame (q : Queue) (u c : string) :
  conns q !! u = Some c →
  match processQueue q u with
  | Done q' =>
      sent_to c (router q) (router q')
      ∧ conns q' = conns q ∧ mutexes q' = mutexes q
      ∧ ∀ v, v ≠ u → reqs q' !! v = reqs q !! v
  | Fatal r' | Panic r' => sent_to c (router q) r'
  | Blocked => True
  end.
Proof. apply processQueue_frame_aux. Qed.

Lemma processQueue_frame_witness :
  match processQueue frame_queue "u" with
  | Done q' =>
      sent_to "c1" (router frame_queue) (router q')
      ∧ conns q' = conns frame_queue ∧ mutexes q' = mutexes frame_queue
      ∧ ∀ v, v ≠ "u" → reqs q' !! v = reqs frame_queue !! v
  | Fatal r' | Panic r' => sent_to "c1" (router frame_queue) r'
  | Blocked => True
  end.
Proof. apply (processQueue_frame frame_queue "u" "c1"). reflexivity. Defined.

(** *** The invariant *)

Lemma inv_NewQueue r : inv (NewQueue r).
Proof.
  split; [|split]; simpl.
  - intros u. rewrite !lookup_empty. split; intros [? ?]; done.
  - intros u m. by rewrite lookup_empty.
  - intros u rs. by rewrite lookup_empty.
Qed.

Lemma inv_SetConn q u c : inv q → inv (SetConn q u c).1.
Proof.
  intros (Hdom & Hunl & Hwf). unfold SetConn.
  destruct (conns q !! u); [done|]. split; [|split]; simpl.
  - intros v. rewrite !lookup_insert. case_decide; [|apply Hdom].
    split; intros _; eauto.
  - intros v m. rewrite lookup_insert. case_decide; [by intros [= <-]|apply Hunl].
  - done.
Qed.

Lemma inv_RemoveConn q u : inv q → inv (RemoveConn q u).
Proof.
  intros (Hdom & Hunl & Hwf). split; [|split]; simpl.
  - intros v. rewrite !lookup_delete. case_decide; [|apply Hdom].
    split; intros [? ?]; done.
  - intros v m. rewrite lookup_delete. case_decide; [done|apply Hunl].
  - done.
Qed.

Lemma inv_addRequest_closure q u r : inv q → inv (addRequest_closure q u r).1.
Proof.
  intros (Hdom & Hunl & Hwf). split; [|split]; simpl; [done..|].
  intros v rs. destruct (reqs q !! u) as [old|] eqn:Hold;
    rewrite lookup_insert; case_decide; try apply Hwf.
  - intros [= <-]. by apply QueueProps.go_append_elems, (Hwf u).
  - intros [= <-]. apply QueueProps.slice_lit_elems.
Qed.

Lemma inv_processQueue q u :
  inv q →
  match processQueue q u with
  | Done q' => inv q'
  | Blocked => False
  | Fatal _ | Panic _ => True
  end.
Proof.
  intros Hinv. pose proof Hinv as (Hdom & Hunl & Hwf). unfold processQueue.
  destruct (conns q !! u) as [c|] eqn:Hc; [|done].
  destruct (proj1 (Hdom u) (mk_is_Some _ _ Hc)) as [m Hm]. rewrite Hm.
  rewrite (Hunl _ _ Hm).
  destruct (reqs q !! u) as [rs|] eqn:Hrs; [|done].
  pose proof (range_loop_spec (len rs) (router q) c 0 rs) as H.
  destruct (range_loop _ _ _ _ _) as [[r' rs']|r'|r'|]; [|done..].
  destruct H as [_ Hwf']. split; [|split]; simpl; [done..|].
  intros v s. rewrite lookup_insert. case_decide; [|apply Hwf].
  intros [= <-]. by apply Hwf', (Hwf u).
Qed.

Lemma run_all_processQueue fuel q u :
  run_all (S fuel) q [TProcessQueue u] =
  match processQueue q u with
  | Done q' => Some (Done q')
  | Fatal r => Some (Fatal r)
  | Panic r => Some (Panic r)
  | Blocked => Some Blocked
  end.
Proof. simpl. destruct (processQueue q u); try done. by destruct fuel. Qed.

Lemma call_AddRequest_unfold q u r :
  call_AddRequest q u r =
  run_all 3 (addRequest_closure q u r).1 [TProcessQueue u].
Proof. by destruct r. Qed.

Lemma inv_apply_op q o :
  inv q →
  match apply_op q o with
  | Some (Done q') => inv q'
  | Some Blocked | None => False
  | Some (Fatal _) | Some (Panic _) => True
  end.
Proof.
  intros Hinv. destruct o as [u c|u|u r]; simpl.
  - unfold call_SetConn. pose proof (inv_SetConn q u c Hinv) as H1.
    unfold SetConn in *. destruct (conns q !! u); [done|].
    rewrite run_all_processQueue.
    pose proof (inv_processQueue _ u H1) as H2.
    by destruct (processQueue _ u).
  - by apply inv_RemoveConn.
  - rewrite call_AddRequest_unfold, run_all_processQueue.
    pose proof (inv_processQueue _ u (inv_addRequest_closure q u r Hinv)) as H2.
    by destruct (processQueue _ u).
Qed.

Lemma inv_run_ops ops :
  ∀ q, inv q →
    match run_ops q ops with
    | Some (Done q') => inv q'
    | Some Blocked | None => False
    | Some (Fatal _) | Some (Panic _) => True
    end.
Proof.
  induction ops as [|o ops IH]; intros q Hinv; simpl; [done|].
  pose proof (inv_apply_op q o Hinv) as H.
  destruct (apply_op q o) as [[q1|r|r|]|]; simpl; try done. by apply IH.
Qed.

Lemma inv_frame_queue : inv frame_queue.
Proof. do 2 apply inv_addRequest_closure. apply inv_SetConn, inv_NewQueue. Qed.

Lemma inv_offline_queue : inv offline_queue.
Proof. apply inv_addRequest_closure, inv_NewQueue. Qed.

(** X9. from a new queue, every sequence of [SetConn], [RemoveConn] and
    [AddRequest] calls, each run to its end, either ends the process or
    leaves a queue in which the users with a connection are the users
    with a mutex, no mutex in the map is locked and every queued slice is
    within its capacity; no call ever waits for a lock. *)
Theorem run_ops_keeps_inv (r : Router) (ops : list op) :
  match run_ops (NewQueue r) ops with
  | Some (Done q) => inv q
  | Some Blocked | None => False
  | Some (Fatal _) | Some (Panic _) => True
  end.
Proof. apply inv_run_ops, inv_NewQueue. Qed.

(** *** Enqueueing *)

Lemma closure_pending q u r :
  (∀ rs, reqs q !! u = Some rs → wf rs) →
  pending_of (addRequest_closure q u r).1 u = pending_of q u ++ [r]
  ∧ ∀ v, v ≠ u → reqs (addRequest_closure q u r).1 !! v = reqs q !! v.
Proof.
  intros Hwf. unfold pending_of, addRequest_closure. simpl.
  destruct (reqs q !! u) as [rs|] eqn:Hrs; simpl;
    (split; [rewrite lookup_insert_eq | by intros v Hv; rewrite lookup_insert_ne]);
    simpl; [|done].
  by apply QueueProps.go_append_elems, Hwf.
Qed.

(** X1. [AddRequest] itself leaves the queue as it is and starts its
    closure; the closure puts the request behind the user's pending
    requests (creating the queue when there is none), leaves the other
    users' queues, the directory and the router alone, and starts one
    drain for the user. *)
Theorem AddRequest_appends (q : Queue) (u : string) (r : queuedRequest) :
  (∀ rs, reqs q !! u = Some rs → wf rs) →
  AddRequest q u (Method r) (Params r) (ResHandler r) = (q, [TAddRequest u r])
  ∧ (addRequest_closure q u r).2 = [TProcessQueue u]
  ∧ pending_of (addRequest_closure q u r).1 u = pending_of q u ++ [r]
  ∧ (∀ v, v ≠ u → reqs (addRequest_closure q u r).1 !! v = reqs q !! v)
  ∧ conns (addRequest_closure q u r).1 = conns q
  ∧ router (addRequest_closure q u r).1 = router q.
Proof.
  intros Hwf. destruct (closure_pending q u r Hwf) as [Hp Hother].
  split; [by destruct r|]. done.
Qed.

Lemma AddRequest_appends_witness :
  pending_of (addRequest_closure frame_queue "u" reqC).1 "u" = [reqA; reqC]
  ∧ AddRequest frame_queue "u" (Method reqC) (Params reqC) (ResHandler reqC)
    = (frame_queue, [TAddRequest "u" reqC]).
Proof.
  destruct (AddRequest_appends frame_queue "u" reqC) as (H1 & _ & H3 & _).
  - intros rs Hrs. by apply inv_frame_queue in Hrs.
  - split; [exact H3 | exact H1].
Defined.

(** X2. while a user has no connection, any number of [AddRequest] calls
    for that user complete, queue the requests in the order of the calls
    behind those already pending, and never reach the router. *)
Theorem enqueue_offline (rs : list queuedRequest) :
  ∀ (q : Queue) (u : string),
    inv q → conns q !! u = None →
    ∃ q', run_ops q (OpAddRequest u <$> rs) = Some (Done q')
          ∧ pending_of q' u = pending_of q u ++ rs
          ∧ router q' = router q
          ∧ conns q' = conns q
          ∧ ∀ v, v ≠ u → reqs q' !! v = reqs q !! v.
Proof.
  induction rs as [|r rs IH]; intros q u Hinv Hc; simpl.
  { exists q. by rewrite app_nil_r. }
  rewrite call_AddRequest_unfold, run_all_processQueue.
  set (q1 := (addRequest_closure q u r).1).
  assert (processQueue q1 u = Done q1) as -> by (unfold processQueue; simpl; by rewrite Hc).
  simpl.
  destruct (closure_pending q u r) as [Hp Hother]; [intros s Hs; by apply Hinv in Hs|].
  destruct (IH q1 u (inv_addRequest_closure q u r Hinv) Hc)
    as (q' & Hrun & Hp' & Hr' & Hc' & Ho').
  exists q'. split; [done|]. split; [|split; [done|split; [done|]]].
  - rewrite Hp'. fold q1 in Hp. rewrite Hp. by rewrite <- app_assoc.
  - intros v Hv. rewrite Ho' by done. by apply Hother.
Qed.

Lemma enqueue_offline_witness :
  ∃ q', run_ops (NewQueue always_ok) (OpAddRequest "u" <$> [reqA; reqB; reqC])
        = Some (Done q')
        ∧ pending_of q' "u" = pending_of (NewQueue always_ok) "u" ++ [reqA; reqB; reqC]
        ∧ router q' = router (NewQueue always_ok)
        ∧ conns q' = conns (NewQueue always_ok)
        ∧ ∀ v, v ≠ "u" → reqs q' !! v = reqs (NewQueue always_ok) !! v.
Proof.
  apply (enqueue_offline [reqA; reqB; reqC] (NewQueue always_ok) "u").
  - apply inv_NewQueue.
  - reflexivity.
Defined.

(** *** Draining *)

Lemma processQueue_nothing_to_send_aux (q : Queue) (u : string) :
  inv q →
  conns q !! u = None ∨ pending_of q u = [] →
  processQueue q u = Done q.
Proof.
  intros (Hdom & Hunl & Hwf) Hcase. unfold processQueue.
  destruct (conns q !! u) as [c|] eqn:Hc; [|done].
  destruct Hcase as [|Hempty]; [done|].
  destruct (proj1 (Hdom u) (mk_is_Some _ _ Hc)) as [m Hm]. rewrite Hm.
  rewrite (Hunl _ _ Hm).
  destruct (reqs q !! u) as [rs|] eqn:Hrs; [|done].
  assert (len rs = 0) as Hlen.
  { unfold pending_of in Hempty. rewrite Hrs in Hempty. simpl in Hempty.
    specialize (Hwf _ _ Hrs). unfold wf, cap, elems in *.
    apply (f_equal length) in Hempty. rewrite length_take in Hempty. simpl in Hempty. lia. }
  rewrite Hlen. simpl. rewrite insert_id by done. by destruct q.
Qed.

(** X3. with nothing to send -- no connection for the user, or no
    pending request -- [processQueue] returns and the queue is exactly
    as it was. *)
Theorem processQueue_nothing_to_send (q : Queue) (u : string) :
  inv q →
  conns q !! u = None ∨ pending_of q u = [] →
  processQueue q u = Done q.
Proof. apply processQueue_nothing_to_send_aux. Qed.

Lemma processQueue_nothing_to_send_witness :
  processQueue offline_queue "u" = Done offline_queue
  ∧ processQueue (SetConn offline_queue "w" "c9").1 "w"
    = Done (SetConn offline_queue "w" "c9").1.
Proof.
  split.
  - apply (processQueue_nothing_to_send offline_queue "u").
    + apply inv_offline_queue.
    + left. reflexivity.
  - apply (processQueue_nothing_to_send (SetConn offline_queue "w" "c9").1 "w").
    + apply inv_SetConn.
      apply inv_offline_queue.
    + right. reflexivity.
Defined.

(** X4. a queue of exactly one request whose hand-off the router accepts
    is drained: the request is handed off to the user's connection, once,
    and the user's queue is empty afterwards. *)
Theorem processQueue_one_request (q : Queue) (u c : string) (rs : slice)
    (req : queuedRequest) :
  inv q →
  conns q !! u = Some c →
  reqs q !! u = Some rs →
  elems rs = [req] →
  accepts (router q) (calls (router q)) c req = true →
  ∃ q', processQueue q u = Done q'
        ∧ pending_of q' u = []
        ∧ calls (router q') = calls (router q) ++ [mkCall c req true].
Proof.
  intros (Hdom & Hunl & Hwf) Hc Hrs Hel Hok. unfold processQueue. rewrite Hc.
  destruct (proj1 (Hdom u) (mk_is_Some _ _ Hc)) as [m Hm]. rewrite Hm.
  rewrite (Hunl _ _ Hm), Hrs.
  specialize (Hwf _ _ Hrs). unfold wf, cap, elems in *.
  assert (len rs = 1) as Hlen.
  { apply (f_equal length) in Hel. rewrite length_take in Hel. simpl in Hel. lia. }
  assert (arr rs !! 0 = Some req) as H0.
  { rewrite Hlen in Hel. destruct (arr rs) as [|x l]; [done|].
    simpl in Hel. rewrite take_0 in Hel. by injection Hel as ->. }
  rewrite Hlen. cbn [range_loop]. rewrite H0. unfold SendRequest. rewrite Hok.
  unfold remove_at. rewrite Hlen. unfold cap.
  destruct (decide _) as [_|Hno]; [|lia].
  simpl. eexists. split; [done|]. split; [|done].
  unfold pending_of. simpl. by rewrite lookup_insert_eq.
Qed.

Lemma processQueue_one_request_witness :
  ∃ q', processQueue frame_queue "u" = Done q'
        ∧ pending_of q' "u" = []
        ∧ calls (router q') = calls (router frame_queue) ++ [mkCall "c1" reqA true].
Proof.
  apply (processQueue_one_request frame_queue "u" "c1" (mkSlice [reqA] 1) reqA).
  - apply inv_frame_queue.
  - reflexivity.
  - reflexivity.
  - reflexivity.
  - reflexivity.
Defined.

(** The loop over two or more requests, seen from the router: it ends
    in [log.Fatal] right after a refused hand-off, or in a panic after
    hand-offs that were all accepted. *)
Lemma range_loop_crashes (k : nat) :
  ∀ r c i s,
    0 < k → i + k ≤ cap s → wf s → len s + 1 < i + 2 * k →
    ∃ r' new,
      calls r' = calls r ++ new ∧ new ≠ []
      ∧ ((range_loop r c k i s = Fatal r'
          ∧ ∃ cl, last new = Some cl ∧ c_ok cl = false)
         ∨ (range_loop r c k i s = Panic r'
            ∧ Forall (λ cl, c_ok cl = true) new)).
Proof.
  induction k as [|k IH]; intros r c i s Hk Hcap Hwf Hlen; [lia|].
  cbn [range_loop].
  destruct (lookup_lt_is_Some_2 (arr s) i) as [req Hreq]; [unfold cap in Hcap; lia|].
  rewrite Hreq. unfold SendRequest.
  set (ok := accepts r (calls r) c req).
  set (r1 := {| accepts := accepts r; calls := calls r ++ [mkCall c req ok] |}).
  destruct ok eqn:Hok.
  - destruct (remove_at i s) as [s'|] eqn:Hrm.
    + destruct (QueueProps.remove_at_Some _ _ _ Hrm Hwf) as (Hi & Hl' & Hc').
      destruct (IH r1 c (S i) s') as (r' & new & Hcalls & Hne & Hend);
        [lia | lia | by eapply QueueProps.remove_at_wf | lia |].
      exists r', (mkCall c req true :: new).
      split; [rewrite Hcalls; simpl; by rewrite <- app_assoc|].
      split; [done|].
      destruct Hend as [[Hf (cl & Hlast & Hcl)]|[Hp Hall]].
      * left. split; [done|]. exists cl. split; [|done].
        destruct new; [done|]. done.
      * right. split; [done|]. by constructor.
    + exists r1, [mkCall c req true]. split; [done|]. split; [done|].
      right. split; [done|]. by repeat constructor.
  - exists r1, [mkCall c req false]. split; [done|]. split; [done|].
    left. split; [done|]. by eexists.
Qed.

(** X5. With two or more requests pending for a connected user,
    [processQueue] hands off at least one request and then ends the
    process, whatever the router answers: through [log.Fatal] right after
    a hand-off the router refused, or, when every hand-off it made was
    accepted, in a panic (the slice expression [reqs[i+1:]] out of
    range).  It never completes and never waits. *)
Theorem drain_two_or_more_crashes (q : Queue) (u c : string) (rs : slice) :
  inv q →
  conns q !! u = Some c →
  reqs q !! u = Some rs →
  2 ≤ len rs →
  ∃ r' new,
    calls r' = calls (router q) ++ new ∧ new ≠ []
    ∧ ((processQueue q u = Fatal r'
        ∧ ∃ cl, last new = Some cl ∧ c_ok cl = false)
       ∨ (processQueue q u = Panic r'
          ∧ Forall (λ cl, c_ok cl = true) new)).
Proof.
  intros (Hdom & Hunl & Hwf) Hc Hrs H2. unfold processQueue. rewrite Hc.
  destruct (proj1 (Hdom u) (mk_is_Some _ _ Hc)) as [m Hm]. rewrite Hm.
  rewrite (Hunl _ _ Hm), Hrs. specialize (Hwf _ _ Hrs).
  destruct (range_loop_crashes (len rs) (router q) c 0 rs)
    as (r' & new & Hcalls & Hne & Hend); [lia | unfold wf in Hwf; lia | done | lia |].
  exists r', new. split; [done|]. split; [done|].
  destruct Hend as [[-> Hl]|[-> Hall]]; [by left | by right].
Qed.

Lemma drain_two_or_more_crashes_witness :
  (∃ r' new,
     calls r' = calls (router (two_request_queue always_ok)) ++ new ∧ new ≠ []
     ∧ ((processQueue (two_request_queue always_ok) "u" = Fatal r'
         ∧ ∃ cl, last new = Some cl ∧ c_ok cl = false)
        ∨ (processQueue (two_request_queue always_ok) "u" = Panic r'
           ∧ Forall (λ cl, c_ok cl = true) new)))
  ∧ attempted (router (two_request_queue always_ok)) = [].
Proof.
  split; [|reflexivity].
  apply (drain_two_or_more_crashes (two_request_queue always_ok) "u" "c1"
           (mkSlice [reqA; reqB] 2)).
  - do 2 apply inv_addRequest_closure. apply inv_SetConn, inv_NewQueue.
  - reflexivity.
  - reflexivity.
  - simpl. lia.
Defined.

(** *** Association and disconnection *)

Lemma SetConn_RemoveConn_round_trip_aux (q : Queue) (u c : string) :
  inv q → conns q !! u = None →
  RemoveConn (SetConn q u c).1 u = q.
Proof.
  intros (Hdom & _ & _) Hc.
  assert (mutexes q !! u = None) as Hm.
  { destruct (mutexes q !! u) as [m|] eqn:Hm; [|done].
    destruct (proj2 (Hdom u) (mk_is_Some _ _ Hm)) as [? ?]. congruence. }
  unfold SetConn. rewrite Hc. unfold RemoveConn. simpl.
  rewrite !delete_insert_id by done. by destruct q.
Qed.

(** X8. For a user without a directory entry, [SetConn] followed by
    [RemoveConn], the drain that [SetConn] starts included.  When that
    drain runs only after the [RemoveConn], it finds no connection and
    the queue is exactly as it was before the [SetConn].  When it runs to
    its end before the [RemoveConn] and the user has nothing pending, the
    queue is exactly as it was too. *)
Theorem SetConn_RemoveConn_round_trip (q : Queue) (u c : string) :
  inv q → conns q !! u = None →
  (SetConn q u c).2 = [TProcessQueue u]
  ∧ run_all 1 (RemoveConn (SetConn q u c).1 u) (SetConn q u c).2 = Some (Done q)
  ∧ (pending_of q u = [] →
     run_ops q [OpSetConn u c; OpRemoveConn u] = Some (Done q)).
Proof.
  intros Hinv Hc.
  pose proof (SetConn_RemoveConn_round_trip_aux q u c Hinv Hc) as Hback.
  split; [by rewrite (QueueProps.SetConn_absent _ _ _ Hc)|]. split.
  - rewrite Hback, (QueueProps.SetConn_absent _ _ _ Hc). cbn [snd].
    rewrite run_all_processQueue.
    by rewrite (processQueue_nothing_to_send_aux q u Hinv (or_introl Hc)).
  - intros Hempty. cbn [run_ops apply_op]. unfold call_SetConn.
    pose proof (inv_SetConn q u c Hinv) as Hinv1.
    rewrite (QueueProps.SetConn_absent _ _ _ Hc) in Hback, Hinv1 |- *.
    cbn [fst] in Hback, Hinv1.
    rewrite run_all_processQueue.
    rewrite (processQueue_nothing_to_send_aux _ u Hinv1 (or_intror Hempty)).
    cbn [and_then]. by rewrite Hback.
Qed.

Lemma SetConn_RemoveConn_round_trip_witness :
  run_all 1 (RemoveConn (SetConn offline_queue "u" "c1").1 "u")
    (SetConn offline_queue "u" "c1").2 = Some (Done offline_queue)
  ∧ run_ops offline_queue [OpSetConn "w" "c9"; OpRemoveConn "w"]
    = Some (Done offline_queue).
Proof.
  split.
  - apply (SetConn_RemoveConn_round_trip offline_queue "u" "c1").
    + apply inv_offline_queue.
    + reflexivity.
  - apply (SetConn_RemoveConn_round_trip offline_queue "w" "c9").
    + apply inv_offline_queue.
    + reflexivity.
    + reflexivity.
Defined.

(** X10. The life of a user's connections.  The first message on a
    connection that carries the user's ID binds the user to it and starts
    a drain.  From then on -- before that drain has run, and after it has
    run to its end -- the user stays bound to that connection, a message
    from another connection of the same user changes nothing, and the
    disconnect handler of any connection carrying that user ID removes
    the binding, leaving the pending requests and the router as it found
    them.  A message on a connection without a user ID panics, and the
    disconnect of such a connection leaves the queue alone. *)
Theorem connection_lifecycle (q : Queue) (u c1 c2 : string)
    (data anon : gmap string iface) :
  inv q → conns q !! u = None →
  data !! "userid" = Some (IString u) →
  anon !! "userid" = None →
  ∃ q0, middleware q (mkConnData c1 data) = Some (q0, [TProcessQueue u])
        ∧ ∀ q1, q1 = q0 ∨ processQueue q0 u = Done q1 →
            conns q1 !! u = Some c1
            ∧ middleware q1 (mkConnData c2 data) = Some (q1, [])
            ∧ (∃ q2, disconnHandler q1 data = Some q2
                     ∧ conns q2 !! u = None
                     ∧ reqs q2 = reqs q1
                     ∧ router q2 = router q1)
            ∧ middleware q1 (mkConnData c2 anon) = None
            ∧ disconnHandler q1 anon = Some q1.
Proof.
  intros Hinv Hc Hdata Hanon.
  exists (SetConn q u c1).1. unfold middleware, disconnHandler. cbn [conn_Data conn_ID].
  rewrite Hdata, Hanon.
  split; [by rewrite (QueueProps.SetConn_absent _ _ _ Hc)|].
  assert (conns (SetConn q u c1).1 !! u = Some c1) as Hbound
    by (rewrite (QueueProps.SetConn_absent _ _ _ Hc); apply lookup_insert_eq).
  intros q1 Hq1.
  assert (conns q1 !! u = Some c1) as Hc1.
  { destruct Hq1 as [->|Hdone]; [done|].
    pose proof (processQueue_frame_aux (SetConn q u c1).1 u c1 Hbound) as Hfr.
    rewrite Hdone in Hfr. destruct Hfr as (_ & -> & _). done. }
  split; [done|]. split; [by rewrite (QueueProps.SetConn_present _ _ _ _ Hc1)|].
  split; [|done].
  eexists. split; [done|]. simpl. split; [apply lookup_delete_eq|done].
Qed.

Lemma connection_lifecycle_witness :
  ∃ q0, middleware offline_queue (mkConnData "c1" {["userid" := IString "u"]})
        = Some (q0, [TProcessQueue "u"])
        ∧ ∀ q1, q1 = q0 ∨ processQueue q0 "u" = Done q1 →
            conns q1 !! "u" = Some "c1"
            ∧ middleware q1 (mkConnData "c2" {["userid" := IString "u"]}) = Some (q1, [])
            ∧ (∃ q2, disconnHandler q1 {["userid" := IString "u"]} = Some q2
                     ∧ conns q2 !! "u" = None
                     ∧ reqs q2 = reqs q1
                     ∧ router q2 = router q1)
            ∧ middleware q1 (mkConnData "c2" ∅) = None
            ∧ disconnHandler q1 ∅ = Some q1.
Proof.
  apply (connection_lifecycle offline_queue "u" "c1" "c2"
           {["userid" := IString "u"]} ∅).
  - apply inv_offline_queue.
  - reflexivity.
  - reflexivity.
  - reflexivity.
Defined.

End QueueExtProps.

(* ===================================================================== *)
(** * Part VIII: further properties of the listener *)
(* ===================================================================== *)

Module ListenerExtProps.
Import Listener Accept.

Lemma bytes_Equal_eq (a b : list byte) : bytes_Equal a b = true ↔ a = b.
Proof.
  revert b. induction a as [|x a IH]; intros [|y b]; simpl; try done.
  rewrite andb_true_iff, IH. split.
  - intros [Hxy ->]. by apply Byte.byte_dec_bl in Hxy as ->.
  - intros [= -> ->]. split; [by apply Byte.byte_dec_lb|done].
Qed.

Lemma disconnects_app evs evs' :
  disconnects (evs ++ evs') = disconnects evs + disconnects evs'.
Proof. unfold disconnects. by rewrite filter_app, length_app. Qed.

Lemma messages_app evs evs' : messages (evs ++ evs') = messages evs ++ messages evs'.
Proof. unfold messages. apply omap_app. Qed.

(** *** The disconnect handler *)

Lemma loop_disconnects (fuel : nat) :
  ∀ b evs,
    disconnects evs = 0 →
    let r := handleClient_loop fuel b evs in
    (r.1 = Returned → last r.2 = Some EvDisconnect ∧ disconnects r.2 = 1)
    ∧ (r.1 ≠ Returned → disconnects r.2 = 0).
Proof.
  induction fuel as [|fuel IH]; intros b evs H0; cbn [handleClient_loop]; [done|].
  destruct (read_frame b) as [n msg b'| | |]; [|done..].
  destruct ((n =? 4)%Z && bytes_Equal msg ping); [by apply IH|].
  destruct ((n =? 5)%Z && bytes_Equal msg closed).
  - simpl. split; [|done]. intros _.
    rewrite last_snoc, disconnects_app, H0. done.
  - apply IH. by rewrite disconnects_app, H0.
Qed.

(** X12. on every connection that delivers finitely many bytes
    [handleClient] ends, and the disconnect handler is started at most
    once: exactly once, as the last goroutine started, when the function
    returns (after a close frame), and not at all in every other case,
    where the process is gone. *)
Theorem handleClient_disconnect_handler (conn : Conn) :
  (handleClient conn).1 ≠ Running
  ∧ ((handleClient conn).1 = Returned →
       last (handleClient conn).2 = Some EvDisconnect
       ∧ disconnects (handleClient conn).2 = 1)
  ∧ ((handleClient conn).1 ≠ Returned →
       disconnects (handleClient conn).2 = 0
       ∧ process_alive (handleClient conn).1 = false).
Proof.
  pose proof (ListenerProps.handleClient_ends conn) as Hends.
  destruct (loop_disconnects (S (length (concat (incoming conn))))
              (NewReader conn) [] eq_refl) as [Hret Hno].
  fold (handleClient conn) in Hret, Hno.
  split; [done|]. split; [done|]. intros Hne. split; [by apply Hno|].
  by destruct (handleClient conn).1.
Qed.

(** *** What the message handler is given *)

Lemma read_frame_length (b b' : Reader) (n : Z) (msg : list byte) :
  read_frame b = FrameOk n msg b' → (0 < n)%Z ∧ length msg = Z.to_nat n.
Proof.
  unfold read_frame.
  destruct (ReadSlice b newline) as [[line b1]|e]; [|done].
  destruct (Atoi _) as [k|]; [|done].
  destruct (k =? 0)%Z eqn:Hk0; [done|].
  unfold make_bytes. destruct (decide _) as [|Hk]; [done|].
  destruct (ListenerProps.read_content_spec (Z.to_nat k) b1 k 0
              (replicate (Z.to_nat k) x00)) as [_ Hres];
    [by rewrite length_replicate | lia | lia |].
  destruct (read_content _ _ _ _ _) as [[[m b2]|e]|]; [|done..].
  intros [= <- <- <-]. destruct (Hres _ _ eq_refl) as [_ Hlen].
  rewrite length_replicate in Hlen. split; [lia|done].
Qed.

Lemma loop_messages (fuel : nat) :
  ∀ b evs,
    Forall (λ m, m ≠ [] ∧ m ≠ ping ∧ m ≠ closed) (messages evs) →
    Forall (λ m, m ≠ [] ∧ m ≠ ping ∧ m ≠ closed)
      (messages (handleClient_loop fuel b evs).2).
Proof.
  induction fuel as [|fuel IH]; intros b evs Hall; cbn [handleClient_loop]; [done|].
  destruct (read_frame b) as [n msg b'| | |] eqn:Hframe; [|done..].
  destruct (read_frame_length _ _ _ _ Hframe) as [Hpos Hlen].
  destruct ((n =? 4)%Z && bytes_Equal msg ping) eqn:Hping; [by apply IH|].
  destruct ((n =? 5)%Z && bytes_Equal msg closed) eqn:Hclose.
  - simpl. rewrite messages_app. simpl. by rewrite app_nil_r.
  - apply IH. rewrite messages_app. apply Forall_app. split; [done|].
    constructor; [|constructor]. split; [|split].
    + intros ->. simpl in Hlen. lia.
    + intros ->. apply andb_false_iff in Hping as [Hn|Hne].
      * simpl in Hlen. lia.
      * by rewrite (proj2 (bytes_Equal_eq ping ping)) in Hne.
    + intros ->. apply andb_false_iff in Hclose as [Hn|Hne].
      * simpl in Hlen. lia.
      * by rewrite (proj2 (bytes_Equal_eq closed closed)) in Hne.
Qed.

(** X13. whatever the connection delivers, a message given to the message
    handler is never empty and is never the ping or the close payload. *)
Theorem handler_never_gets_control_frames (conn : Conn) (m : list byte) :
  m ∈ messages (handleClient conn).2 →
  m ≠ [] ∧ m ≠ ping ∧ m ≠ closed.
Proof.
  intros Hin.
  pose proof (loop_messages (S (length (concat (incoming conn))))
                (NewReader conn) [] (Forall_nil_2 _)) as Hall.
  rewrite Forall_forall in Hall. by apply Hall.
Qed.

Lemma handler_never_gets_control_frames_witness :
  bytes_of "abcd" ≠ [] ∧ bytes_of "abcd" ≠ ping ∧ bytes_of "abcd" ≠ closed.
Proof.
  apply (handler_never_gets_control_frames
           (mkConn [frame_bytes "4" ping; frame_bytes "4" (bytes_of "abcd")] ErrEOF)).
  vm_compute. apply list_elem_of_here.
Defined.

(** *** A frame that lies whole in the buffer *)

Lemma digit_not_newline (c : byte) : is_digit c = true → Byte.eqb c newline = false.
Proof. destruct c; try discriminate; reflexivity. Qed.

Lemma digits_no_newline (s : list byte) :
  ∀ acc v, digits_value acc s = Some v → IndexByte s newline = None.
Proof.
  induction s as [|c s IH]; intros acc v; simpl; [done|].
  destruct (is_digit c) eqn:Hd; [|done].
  intros Hv. rewrite (digit_not_newline c Hd). by rewrite (IH _ _ Hv).
Qed.

Lemma IndexByte_cons (x : byte) (s : list byte) (c : byte) :
  IndexByte (x :: s) c = if Byte.eqb x c then Some 0 else S <$> IndexByte s c.
Proof. reflexivity. Qed.

Lemma Atoi_no_newline (h : list byte) (n : Z) :
  Atoi h = Some n → IndexByte h newline = None.
Proof.
  unfold Atoi. destruct h as [|c rest]; [done|].
  destruct (Byte.eqb c "-" || Byte.eqb c "+") eqn:Hsign.
  - destruct rest as [|d rest]; [done|].
    destruct (digits_value 0 (d :: rest)) as [v|] eqn:Hv; [|done].
    intros _. rewrite IndexByte_cons.
    assert (Byte.eqb c newline = false) as ->.
    { apply orb_true_iff in Hsign as [H|H]; apply Byte.byte_dec_bl in H as ->; done. }
    by rewrite (digits_no_newline _ _ _ Hv).
  - destruct (digits_value 0 (c :: rest)) as [v|] eqn:Hv; [|done].
    intros _. by apply digits_no_newline in Hv.
Qed.

Lemma IndexByte_first (h t : list byte) (c : byte) :
  IndexByte h c = None → IndexByte (h ++ c :: t) c = Some (length h).
Proof.
  induction h as [|x h IH]; simpl.
  - intros _. by rewrite (Byte.byte_dec_lb (eq_refl c)).
  - destruct (Byte.eqb x c); [done|].
    destruct (IndexByte h c); [done|]. intros _. by rewrite IH.
Qed.

Lemma read_frame_buffered (c : Conn) (h p rest : list byte) :
  Atoi h = Some (Z.of_nat (length p)) →
  p ≠ [] → (Z.of_nat (length p) ≤ maxAlloc)%Z →
  read_frame {| rd := c; buf := h ++ newline :: p ++ rest |}
  = FrameOk (Z.of_nat (length p)) p {| rd := c; buf := rest |}.
Proof.
  intros Hh Hp Hmax. unfold read_frame, ReadSlice. cbn [ReadSlice_loop buf rd].
  rewrite (IndexByte_first _ _ _ (Atoi_no_newline _ _ Hh)).
  change (h ++ newline :: p ++ rest) with (h ++ [newline] ++ (p ++ rest)).
  rewrite (app_assoc h [newline] (p ++ rest)).
  rewrite take_app_length', drop_app_length' by (rewrite length_app; simpl; lia).
  replace (length (h ++ [newline]) - 1) with (length h)
    by (rewrite length_app; simpl; lia).
  rewrite take_app_length, Hh.
  destruct p as [|x p]; [done|]. clear Hp.
  destruct (Z.of_nat (length (x :: p)) =? 0)%Z eqn:H0; [simpl in H0; lia|].
  unfold make_bytes. destruct (decide _) as [Hbad|_]; [lia|].
  rewrite Nat2Z.id. simpl length. cbn [read_content replicate].
  destruct (decide (0 < Z.of_nat (S (length p)))%Z) as [_|]; [|lia].
  unfold Read. cbn [length buf rd app].
  destruct (decide (S (length (replicate (length p) x00)) = 0)) as [|_]; [done|].
  rewrite length_replicate, length_app.
  replace (S (length p) `min` S (length p + length rest)) with (S (length p)) by lia.
  cbn [take drop]. rewrite take_app_length, drop_app_length.
  rewrite drop_ge by (rewrite length_replicate; lia). rewrite app_nil_r.
  destruct (length p) as [|m] eqn:Hm; cbn [read_content];
    (destruct (decide _) as [Hlt|_]; [lia|done]).
Qed.

(** X14. a frame whose header and payload lie whole in the reader's
    buffer is decoded exactly -- the payload as sent, the bytes behind it
    left in the buffer -- and, when it is not a control payload, the
    message handler is started with it and the loop goes on. *)
Theorem buffered_frame_dispatched (c : Conn) (h p rest : list byte)
    (fuel : nat) (evs : list event) :
  Atoi h = Some (Z.of_nat (length p)) →
  p ≠ [] → (Z.of_nat (length p) ≤ maxAlloc)%Z →
  p ≠ ping → p ≠ closed →
  read_frame {| rd := c; buf := h ++ newline :: p ++ rest |}
  = FrameOk (Z.of_nat (length p)) p {| rd := c; buf := rest |}
  ∧ handleClient_loop (S fuel) {| rd := c; buf := h ++ newline :: p ++ rest |} evs
    = handleClient_loop fuel {| rd := c; buf := rest |} (evs ++ [EvMessage p]).
Proof.
  intros Hh Hp Hmax Hping Hclose.
  pose proof (read_frame_buffered c h p rest Hh Hp Hmax) as Hframe.
  split; [done|]. cbn [handleClient_loop]. rewrite Hframe.
  assert (bytes_Equal p ping = false) as ->.
  { destruct (bytes_Equal p ping) eqn:E; [|done]. by apply bytes_Equal_eq in E. }
  assert (bytes_Equal p closed = false) as ->.
  { destruct (bytes_Equal p closed) eqn:E; [|done]. by apply bytes_Equal_eq in E. }
  by rewrite !andb_false_r.
Qed.

Lemma buffered_frame_dispatched_witness :
  read_frame {| rd := mkConn [] ErrEOF;
                buf := bytes_of "4" ++ newline :: bytes_of "abcd" ++ bytes_of "1" |}
  = FrameOk 4 (bytes_of "abcd") {| rd := mkConn [] ErrEOF; buf := bytes_of "1" |}
  ∧ handleClient_loop 1
      {| rd := mkConn [] ErrEOF;
         buf := bytes_of "4" ++ newline :: bytes_of "abcd" ++ bytes_of "1" |} []
    = handleClient_loop 0 {| rd := mkConn [] ErrEOF; buf := bytes_of "1" |}
        ([] ++ [EvMessage (bytes_of "abcd")]).
Proof.
  apply (buffered_frame_dispatched (mkConn [] ErrEOF) (bytes_of "4")
           (bytes_of "abcd") (bytes_of "1") 0 []).
  - reflexivity.
  - discriminate.
  - vm_compute. discriminate.
  - discriminate.
  - discriminate.
Defined.

(** X15. control frames that lie whole in the buffer.  After [4\nping]
    the loop goes on with the bytes that follow and has started nothing;
    after [5\nclose] the disconnect handler is started and the function
    returns at once: whatever follows the close frame is never read. *)
Theorem control_frames_buffered (c : Conn) (rest : list byte) (fuel : nat)
    (evs : list event) :
  handleClient_loop (S fuel) {| rd := c; buf := frame_bytes "4" ping ++ rest |} evs
  = handleClient_loop fuel {| rd := c; buf := rest |} evs
  ∧ handleClient_loop (S fuel) {| rd := c; buf := frame_bytes "5" closed ++ rest |} evs
    = (Returned, evs ++ [EvDisconnect]).
Proof.
  split; cbn [handleClient_loop].
  - by rewrite ListenerProps.read_frame_ping_buffered.
  - by rewrite ListenerProps.read_frame_close_buffered.
Qed.

(** *** Accept *)

(** X16. [Accept] hands every connection accepted before the first
    failure to one [handleClient] goroutine, in the order of arrival,
    returns the failure wrapped in its message, and serves nothing that
    arrives after it; without a failure it does not return. *)
Theorem Accept_serves_until_failure (conns : list Conn) (e : string)
    (later : list accepted) :
  Accept ((Accepted <$> conns) ++ AcceptFailed e :: later)
  = (conns, Some ("error while accepting a new connection from a client: " +:+ e))
  ∧ Accept (Accepted <$> conns) = (conns, None).
Proof.
  split.
  - induction conns as [|c conns IH]; [done|].
    rewrite fmap_cons. cbn [app Accept]. by rewrite IH.
  - induction conns as [|c conns IH]; [done|].
    rewrite fmap_cons. cbn [Accept]. by rewrite IH.
Qed.

End ListenerExtProps.

(* ===================================================================== *)
(** * Part IX: util.go and server.go *)
(* ===================================================================== *)

Module UtilProps.
Import Listener Util.

Lemma hex_byte_lower (b : byte) : forallb is_lower_hex (hex_byte b) = true.
Proof. destruct b; reflexivity. Qed.

Lemma hex_byte_inj (a b : byte) : hex_byte a = hex_byte b → a = b.
Proof.
  set (val := λ c : byte,
         if is_digit c then (Byte.to_N c - 48)%N else (Byte.to_N c - 87)%N).
  set (dec := λ l : list byte,
         match l with
         | [hi; lo] => Byte.of_N (val hi * 16 + val lo)
         | _ => None
         end).
  assert (∀ x, dec (hex_byte x) = Some x) as Hdec
    by (intros x; destruct x; reflexivity).
  intros H. apply (f_equal dec) in H. rewrite !Hdec in H. by injection H.
Qed.

Lemma hex_inj (b : list byte) :
  ∀ b', flat_map hex_byte b = flat_map hex_byte b' → b = b'.
Proof.
  induction b as [|x b IH]; intros [|y b']; try done.
  cbn [flat_map]. unfold hex_byte at 1 3. cbn [app].
  intros [= H1 H2 H3]. f_equal; [|by apply IH].
  apply hex_byte_inj. unfold hex_byte. by rewrite H1, H2.
Qed.

Lemma hex_length (b : list byte) : length (flat_map hex_byte b) = 2 * length b.
Proof. induction b as [|x b IH]; simpl; lia. Qed.

Lemma hex_lower (b : list byte) : forallb is_lower_hex (flat_map hex_byte b) = true.
Proof.
  induction b as [|x b IH]; [done|].
  cbn [flat_map]. by rewrite forallb_app, hex_byte_lower, IH.
Qed.

(** X17. from the 12 random bytes [getID] makes an ID of 26 characters,
    [m-] followed by 24 lower-case hexadecimal digits, and different
    bytes give different IDs; a failed read gives the empty ID and the
    error. *)
Theorem getID_format (b b' : list byte) :
  length b = 12 → length b' = 12 →
  (getID (inl b)).2 = None
  ∧ length (getID (inl b)).1 = 26
  ∧ take 2 (getID (inl b)).1 = bytes_of "m-"
  ∧ forallb is_lower_hex (drop 2 (getID (inl b)).1) = true
  ∧ ((getID (inl b)).1 = (getID (inl b')).1 → b = b')
  ∧ ∀ e, getID (inr e) = ([], Some e).
Proof.
  intros Hb Hb'. unfold getID, Sprintf_m_x. cbn [fst snd].
  split; [done|]. split; [rewrite length_app, hex_length; simpl; lia|].
  split; [done|]. split; [apply hex_lower|]. split; [|done].
  intros H. apply app_inv_head in H. by apply hex_inj.
Qed.

Lemma getID_format_witness :
  (getID (inl (replicate 12 xab))).1 = bytes_of "m-abababababababababababab"
  ∧ length (getID (inl (replicate 12 xab))).1 = 26.
Proof.
  destruct (getID_format (replicate 12 xab) (replicate 12 xab) eq_refl eq_refl)
    as (_ & Hlen & _).
  split; [reflexivity | exact Hlen].
Defined.

(** X18. [randString(n)] for an [n] that [make] accepts -- not negative,
    and its runes within the allocation limit -- is a string of [n]
    characters, each one of the 55 letters, whatever the generator draws;
    for every other [n] it panics. *)
Theorem randString_alphabet (draw : nat → nat) (n : Z) :
  ((0 ≤ n ∧ 4 * n ≤ maxAlloc)%Z →
     ∃ s, randString draw n = Some s
          ∧ length s = Z.to_nat n
          ∧ Forall (λ c, c ∈ letters) s)
  ∧ ((n < 0 ∨ maxAlloc < 4 * n)%Z → randString draw n = None).
Proof.
  unfold randString. split; intros Hn;
    (destruct (decide (n < 0 ∨ maxAlloc < 4 * n)%Z); [|]); try lia; [|done].
  eexists. split; [done|]. split; [by rewrite length_fmap, length_seq|].
  apply Forall_fmap, Forall_forall. intros i _. unfold compose, Intn.
  assert (draw i mod length letters < length letters) as Hlt
    by (apply Nat.mod_upper_bound; done).
  destruct (lookup_lt_is_Some_2 letters _ Hlt) as [c Hc]. rewrite Hc.
  by eapply list_elem_of_lookup_2.
Qed.

End UtilProps.

Module ServerProps.
Import Server.

(** X19. [Stop] after a [Start] that failed reports the past error, not
    the result of closing, and returns with the mutex still locked: every
    later [Stop] or [Start] waits for ever.  After a [Start] that ended
    without error, [Stop] returns what closing returned and can be called
    again. *)
Theorem Stop_after_Start (e : string) (c1 c2 started : option string) :
  (∃ s1 s2,
     Start NewServer (Some e) = Ret (Some e) s1
     ∧ Stop s1 c1 = Ret (Some ("Past internal error: " +:+ e)) s2
     ∧ errMutex s2 = true
     ∧ Stop s2 c2 = Wait
     ∧ Start s2 started = Wait)
  ∧ (∃ s1,
       Start NewServer None = Ret None s1
       ∧ Stop s1 c1 = Ret c1 s1
       ∧ Stop s1 c2 = Ret c2 s1).
Proof.
  split.
  - eexists _, _. split; [reflexivity|]. split; [reflexivity|].
    split; [reflexivity|]. split; [reflexivity|].
    unfold Start. simpl. by rewrite andb_false_r.
  - eexists. split; [reflexivity|]. split; reflexivity.
Qed.

End ServerProps.

(* ===================================================================== *)
(** * Part X: instances of the general drain and lock lemmas *)
(* ===================================================================== *)

Module Instances.
Import Queue QueueExt Conc.

Lemma processQueue_fatal_witness :
  ∃ r', processQueue (two_request_queue always_fail) "u" = Fatal r'
        ∧ attempted r' = attempted (router (two_request_queue always_fail)) ++ [reqA].
Proof.
  apply (QueueProps.processQueue_fatal (two_request_queue always_fail)
           "u" "c1" (mkSlice [reqA; reqB] 2) reqA);
    [reflexivity | reflexivity | reflexivity | simpl; lia | reflexivity | reflexivity].
Defined.

Lemma stored_mutex_never_locked_witness :
  none_locked (shared (default (start always_ok) (run (start always_ok) race))).
Proof.
  apply (ConcProps.stored_mutex_never_locked always_ok).
  exists race. vm_compute. reflexivity.
Defined.

End Instances.
